(** * Quadrotor dynamics ([environments/drone_dynamics.py]) and the
    cartpole dataset's [to_torch] ([dataset.py])

    The torch tensors of the source are modelled as nested lists of real
    numbers: a tensor of shape (N,) is a [list R], one of shape (N,k) a
    [list (list R)] (N rows), one of shape (N,3,3) a list of N matrices.
    Every entry is an ideal real number: rounding, NaN and infinities of
    float32 are not modelled.  Each batched torch operation is written as
    the list operation it performs on these shapes, with its broadcasting
    rule spelled out, so that [simulate_quadrotor] below reads line by line
    like the Python function of the same name. *)

From Stdlib Require Import Reals Lra Lia List RNsatz.
From Stdlib Require String.
Import ListNotations.
Open Scope R_scope.

(** ** Tensors as nested lists *)

Abbreviation tensor1 := (list R).
Abbreviation tensor2 := (list (list R)).
Abbreviation tensor3 := (list (list (list R))).

(** Elementwise combination of two lists (torch's elementwise binary
    operations on equal shapes). *)
Fixpoint zipWith {A B C : Type} (f : A -> B -> C) (xs : list A) (ys : list B)
  : list C :=
  match xs, ys with
  | x :: xs', y :: ys' => f x y :: zipWith f xs' ys'
  | _, _ => []
  end.

Fixpoint zipWith3 {A B C D : Type} (f : A -> B -> C -> D)
         (xs : list A) (ys : list B) (zs : list C) : list D :=
  match xs, ys, zs with
  | x :: xs', y :: ys', z :: zs' => f x y z :: zipWith3 f xs' ys' zs'
  | _, _, _ => []
  end.

(** [t[:, j]] *)
Definition col (j : nat) (t : tensor2) : tensor1 :=
  map (fun r => nth j r 0) t.

(** [r[a:b]] on one row and [t[:, a:b]] on a batch of rows. *)
Definition slice (a b : nat) (r : tensor1) : tensor1 :=
  firstn (b - a) (skipn a r).
Definition cols (a b : nat) (t : tensor2) : tensor2 := map (slice a b) t.

(** Shape (n,k): [n] rows of [k] entries each. *)
Definition shape2 (n k : nat) (t : tensor2) : Prop :=
  length t = n /\ Forall (fun r => length r = k) t.

(** Exchange of the two outer dimensions of a nested list: [.t()] and
    [torch.transpose(_, 0, 1)] on a 2-d tensor, [torch.stack(_, dim=1)] on a
    tuple of 2-d tensors. *)
Fixpoint transpose {A : Type} (m : list (list A)) : list (list A) :=
  match m with
  | [] => []
  | [r] => map (fun x => [x]) r
  | r :: rs => zipWith cons r (transpose rs)
  end.

(** Operations on tensors of shape (N,). *)
Definition vadd : tensor1 -> tensor1 -> tensor1 := zipWith Rplus.
Definition vsub : tensor1 -> tensor1 -> tensor1 := zipWith Rminus.
Definition vmul : tensor1 -> tensor1 -> tensor1 := zipWith Rmult.
Definition vdiv : tensor1 -> tensor1 -> tensor1 := zipWith Rdiv.
Definition vneg : tensor1 -> tensor1 := map Ropp.
Definition vscale (c : R) : tensor1 -> tensor1 := map (Rmult c).
Definition vcos : tensor1 -> tensor1 := map cos.
Definition vsin : tensor1 -> tensor1 := map sin.
Definition vsum (v : tensor1) : R := fold_right Rplus 0 v.

(** Operations on tensors of shape (N,k). *)
Definition madd : tensor2 -> tensor2 -> tensor2 := zipWith vadd.
Definition msub : tensor2 -> tensor2 -> tensor2 := zipWith vsub.
Definition mscale (c : R) : tensor2 -> tensor2 := map (vscale c).
Definition msquare : tensor2 -> tensor2 := map (map (fun x => x ^ 2)).
Definition msqrt : tensor2 -> tensor2 := map (map sqrt).

(** A 2-d tensor combined with a 1-d one whose length is the size of the
    last dimension: the 1-d operand is broadcast over the rows. *)
Definition rows_op (op : R -> R -> R) (t : tensor2) (v : tensor1) : tensor2 :=
  map (fun r => zipWith op r v) t.
Definition op_rows (op : R -> R -> R) (v : tensor1) (t : tensor2) : tensor2 :=
  map (fun r => zipWith op v r) t.

(** [torch.zeros(n)] and [torch.ones(n)] *)
Definition zeros (n : nat) : tensor1 := repeat 0 n.
Definition ones (n : nat) : tensor1 := repeat 1 n.

(** [torch.maximum(t, torch.zeros(t.size()))] *)
Definition mmax_zeros (t : tensor2) : tensor2 :=
  zipWith (zipWith Rmax) t (map (fun r => zeros (length r)) t).

(** Matrix products on nested lists. *)
Definition dot (u v : tensor1) : R := vsum (vmul u v).
Definition mat_vec (M : tensor2) (v : tensor1) : tensor1 :=
  map (fun r => dot r v) M.
Definition mat_mat (A B : tensor2) : tensor2 :=
  map (fun r => mat_vec (transpose B) r) A.

(** [torch.diag(v)] of a 1-d tensor. *)
Definition diag (v : tensor1) : tensor2 :=
  map (fun i => map (fun j => if Nat.eqb i j then nth i v 0 else 0)
                    (seq 0 (length v)))
      (seq 0 (length v)).

(** [torch.unsqueeze(t, 2)] of a tensor of shape (N,k). *)
Definition unsqueeze2 (t : tensor2) : tensor3 := map (map (fun x => [x])) t.

(** [torch.squeeze] drops every dimension of size one.  On the shape
    (N,3,1), the only one it is applied to here, the result has shape (3,)
    when N = 1 and shape (N,3) otherwise. *)
Inductive squeezed : Type :=
| Sq1 (v : tensor1)
| Sq2 (t : tensor2).

Definition squeeze (t : tensor3) : squeezed :=
  match t with
  | [m] => Sq1 (map (hd 0) m)
  | _ => Sq2 (map (map (hd 0)) t)
  end.

(** Arithmetic with a squeezed operand: a 1-d operand is broadcast over the
    rows of the 2-d one. *)
Definition sq_scale (c : R) (s : squeezed) : squeezed :=
  match s with
  | Sq1 v => Sq1 (vscale c v)
  | Sq2 t => Sq2 (mscale c t)
  end.
Definition msub_sq (t : tensor2) (s : squeezed) : tensor2 :=
  match s with
  | Sq1 v => rows_op Rminus t v
  | Sq2 u => msub t u
  end.
Definition madd_sq (t : tensor2) (s : squeezed) : tensor2 :=
  match s with
  | Sq1 v => rows_op Rplus t v
  | Sq2 u => madd t u
  end.

(** [torch.hstack]: concatenation along dimension 1. *)
Fixpoint hstack (ts : list tensor2) : tensor2 :=
  match ts with
  | [] => []
  | [t] => t
  | t :: ts' => zipWith (@app R) t (hstack ts')
  end.

(** [torch.cross(a, b, dim=1)] on tensors of shape (N,3). *)
Definition cross3 (a b : tensor1) : tensor1 :=
  [nth 1 a 0 * nth 2 b 0 - nth 2 a 0 * nth 1 b 0;
   nth 2 a 0 * nth 0 b 0 - nth 0 a 0 * nth 2 b 0;
   nth 0 a 0 * nth 1 b 0 - nth 1 a 0 * nth 0 b 0].
Definition cross : tensor2 -> tensor2 -> tensor2 := zipWith cross3.

(** ** The parameter set

    [copter_params] comes from the module [copter], which fixes the values;
    the dynamics are stated for an arbitrary parameter set. *)

Record vec3 : Type := Vec3 { vx : R; vy : R; vz : R }.

(** [torch.from_numpy] of a numpy array of shape (3,). *)
Definition from_numpy (v : vec3) : tensor1 := [vx v; vy v; vz v].

Record copter_params_t : Type := {
  mass : R;
  thrust_factor : R;
  arm_length : R;
  drag_factor : R;
  max_rotor_speed : R;
  rotor_speed_half_time : R;
  rotor_inertia : R;
  translational_drag : vec3;
  rotational_drag : vec3;
  frame_inertia : vec3;
  gravity : vec3
}.

(** ** Frame transform *)

Definition world_to_body_matrix (attitude : tensor2) : tensor3 :=
  let roll := col 0 attitude in
  let pitch := col 1 attitude in
  let yaw := col 2 attitude in
  let Cy := vcos yaw in
  let Sy := vsin yaw in
  let Cp := vcos pitch in
  let Sp := vsin pitch in
  let Cr := vcos roll in
  let Sr := vsin roll in
  let m1 := transpose [vmul Cy Cp; vmul Sy Cp; vneg Sp] in
  let m2 := transpose [vsub (vmul (vmul Cy Sp) Sr) (vmul Cr Sy);
                       vadd (vmul Cr Cy) (vmul (vmul Sr Sy) Sp);
                       vmul Cp Sr] in
  let m3 := transpose [vadd (vmul (vmul Cy Sp) Cr) (vmul Sr Sy);
                       vsub (vmul (vmul Cr Sy) Sp) (vmul Cy Sr);
                       vmul Cr Cp] in
  transpose [m1; m2; m3].

(** The rotation matrix of one vehicle, as [world_to_body_matrix] lays it
    out. *)
Definition rotation_of (roll pitch yaw : R) : tensor2 :=
  [[cos yaw * cos pitch; sin yaw * cos pitch; - sin pitch];
   [cos yaw * sin pitch * sin roll - cos roll * sin yaw;
    cos roll * cos yaw + sin roll * sin yaw * sin pitch;
    cos pitch * sin roll];
   [cos yaw * sin pitch * cos roll + sin roll * sin yaw;
    cos roll * sin yaw * sin pitch - cos yaw * sin roll;
    cos roll * cos pitch]].

Definition identity3 : tensor2 := [[1; 0; 0]; [0; 1; 0]; [0; 0; 1]].

(** The Euler-rate matrix of every vehicle of the batch. *)
Definition to_euler_matrix (attitude : tensor2) : tensor3 :=
  let pitch := col 1 attitude in
  let roll := col 0 attitude in
  let Cp := vcos pitch in
  let Sp := vsin pitch in
  let Cr := vcos roll in
  let Sr := vsin roll in
  let m1 := transpose [ones (length Sp); zeros (length Sp); vneg Sp] in
  let m2 := transpose [zeros (length Sr); Cr; vmul Cp Sr] in
  let m3 := transpose [zeros (length Sr); vneg Sr; vmul Cp Cr] in
  transpose [m1; m2; m3].

Definition euler_rate (attitude angular_velocity : tensor2) : squeezed :=
  let euler_matrix := to_euler_matrix attitude in
  let together :=
    zipWith mat_mat euler_matrix (unsqueeze2 angular_velocity) in
  squeeze together.

(** Net rotor speed (two rotors subtracted from the other two). *)
Definition net_rotor_speed (rotorspeeds : tensor2) : tensor1 :=
  vsub (vadd (vsub (col 0 rotorspeeds) (col 1 rotorspeeds))
             (col 2 rotorspeeds))
       (col 3 rotorspeeds).

(** ** Force and torque model, rotor response and integrator *)

Section Dynamics.

Variable copter_params : copter_params_t.

Definition linear_dynamics (rotor_speed attitude velocity : tensor2)
  : tensor2 :=
  let m := mass copter_params in
  let b := thrust_factor copter_params in
  let Kt := from_numpy (translational_drag copter_params) in
  let world_to_body := world_to_body_matrix attitude in
  let body_to_world := map transpose world_to_body in
  let squared_speed := map vsum (msquare rotor_speed) in
  let constant_vec := [0; 0; 1] in
  let thrust :=
    mscale (b / m)
      (transpose
         (rows_op Rmult
            (transpose (map (fun M => mat_vec M constant_vec) body_to_world))
            squared_speed)) in
  let Ktw :=
    zipWith mat_mat body_to_world
            (map (fun W => mat_mat (diag Kt) W) world_to_body) in
  let drag :=
    squeeze (map (map (map (fun x => x / m)))
                 (zipWith mat_mat Ktw (unsqueeze2 velocity))) in
  let thrust_minus_drag :=
    rows_op Rplus (msub_sq thrust drag) (from_numpy (gravity copter_params)) in
  thrust_minus_drag.

(** Torques generated directly by the propellers. *)
Definition propeller_torques (rotor_speeds : tensor2) : tensor2 :=
  let squared_speeds := msquare rotor_speeds in
  let r0 := col 0 squared_speeds in
  let r1 := col 1 squared_speeds in
  let r2 := col 2 squared_speeds in
  let r3 := col 3 squared_speeds in
  let Lb := arm_length copter_params * thrust_factor copter_params in
  let d := drag_factor copter_params in
  let motor_torque := vsub (vsub (vadd r3 r1) r2) r0 in
  transpose [vscale Lb (vsub r3 r1); vscale Lb (vsub r0 r2);
             vscale d motor_torque].

Definition angular_momentum_body_frame (rotor_speeds angular_velocity : tensor2)
  : tensor2 :=
  let av := angular_velocity in
  let J := rotor_inertia copter_params in
  let Kr := from_numpy (rotational_drag copter_params) in
  let inertia := from_numpy (frame_inertia copter_params) in
  let transformed_av := [col 2 av; vneg (col 1 av); zeros (length av)] in
  let gyro :=
    transpose
      (op_rows Rmult (map (fun x => x * J) (net_rotor_speed rotor_speeds))
               transformed_av) in
  let drag := op_rows Rmult Kr av in
  let Mp := propeller_torques rotor_speeds in
  msub (madd (msub Mp drag) gyro) (cross av (op_rows Rmult inertia av)).

(** [gamma = 1.0 - 0.5**(dt / copter_params.rotor_speed_half_time)] *)
Definition gamma (dt : R) : R :=
  1 - Rpower 0.5 (dt / rotor_speed_half_time copter_params).

(** One step of the dynamics for a batch: [action] has shape (N,4), [state]
    shape (N,20). *)
Definition simulate_quadrotor (action state : tensor2) (dt : R) : tensor2 :=
  let position := cols 0 3 state in
  let attitude := cols 3 6 state in
  let velocity := cols 6 9 state in
  let rotor_speed := cols 9 13 state in
  let angular_velocity := cols 17 20 state in
  let desired_rotor_speeds :=
    map (map (fun x => x * max_rotor_speed copter_params)) (msqrt action) in
  let dw := mscale (gamma dt) (msub desired_rotor_speeds rotor_speed) in
  let rotor_speed := madd rotor_speed dw in
  let rotor_speed := mmax_zeros rotor_speed in
  let acceleration := linear_dynamics rotor_speed attitude velocity in
  let ang_momentum :=
    angular_momentum_body_frame rotor_speed angular_velocity in
  let angular_acc :=
    rows_op Rdiv ang_momentum (from_numpy (frame_inertia copter_params)) in
  let position :=
    madd (madd position (mscale (0.5 * dt * dt) acceleration))
         (mscale (0.5 * dt) velocity) in
  let velocity := madd velocity (mscale dt acceleration) in
  let angular_velocity := madd angular_velocity (mscale dt angular_acc) in
  let attitude :=
    madd_sq attitude (sq_scale dt (euler_rate attitude angular_velocity)) in
  hstack [position; attitude; velocity; rotor_speed; desired_rotor_speeds;
          angular_velocity].

(** The two rotor quantities of [simulate_quadrotor] under their own
    names: [desired_rotor_speeds] and the clamped [rotor_speed]. *)
Definition desired_speed (action : tensor2) : tensor2 :=
  map (map (fun x => x * max_rotor_speed copter_params)) (msqrt action).

Definition updated_rotor_speed (dt : R) (action rotor_speed : tensor2)
  : tensor2 :=
  mmax_zeros
    (madd rotor_speed
          (mscale (gamma dt) (msub (desired_speed action) rotor_speed))).

(** The caller's loop: one step per action batch, each on the state the
    previous step returned. *)
Fixpoint simulate_steps (actions : list (list (list R))) (state : tensor2)
         (dt : R) : tensor2 :=
  match actions with
  | [] => state
  | action :: rest =>
      simulate_steps rest (simulate_quadrotor action state dt) dt
  end.

(** The divisions by [mass] and [rotor_speed_half_time] are divisions of
    Python floats, which raise on a zero divisor. *)
Definition params_ok : Prop :=
  mass copter_params <> 0 /\ rotor_speed_half_time copter_params <> 0.

End Dynamics.

(** ** The dynamics of one vehicle

    The functions below repeat the batched computations for a single row;
    they are used to state and prove that the batched functions act row by
    row. *)

Definition euler_matrix_of (roll pitch : R) : tensor2 :=
  [[1; 0; - sin pitch];
   [0; cos roll; cos pitch * sin roll];
   [0; - sin roll; cos pitch * cos roll]].

Definition euler_rate_row (att av : tensor1) : tensor1 :=
  map (hd 0)
      (mat_mat (euler_matrix_of (nth 0 att 0) (nth 1 att 0))
               (map (fun x => [x]) av)).

Section RowDynamics.

Variable copter_params : copter_params_t.

Definition linear_row (rotor_speed attitude velocity : tensor1) : tensor1 :=
  let m := mass copter_params in
  let b := thrust_factor copter_params in
  let Kt := from_numpy (translational_drag copter_params) in
  let W :=
    rotation_of (nth 0 attitude 0) (nth 1 attitude 0) (nth 2 attitude 0) in
  let squared_speed := vsum (map (fun x => x ^ 2) rotor_speed) in
  let thrust :=
    vscale (b / m)
           (map (fun y => y * squared_speed) (mat_vec (transpose W) [0; 0; 1])) in
  let Ktw := mat_mat (transpose W) (mat_mat (diag Kt) W) in
  let drag :=
    map (hd 0)
        (map (map (fun x => x / m))
             (mat_mat Ktw (map (fun x => [x]) velocity))) in
  vadd (vsub thrust drag) (from_numpy (gravity copter_params)).

Definition propeller_row (w : tensor1) : tensor1 :=
  let squared := map (fun x => x ^ 2) w in
  let r0 := nth 0 squared 0 in
  let r1 := nth 1 squared 0 in
  let r2 := nth 2 squared 0 in
  let r3 := nth 3 squared 0 in
  let Lb := arm_length copter_params * thrust_factor copter_params in
  let d := drag_factor copter_params in
  [Lb * (r3 - r1); Lb * (r0 - r2); d * (r3 + r1 - r2 - r0)].

Definition net_row (w : tensor1) : R :=
  nth 0 w 0 - nth 1 w 0 + nth 2 w 0 - nth 3 w 0.

Definition angular_row (w av : tensor1) : tensor1 :=
  let J := rotor_inertia copter_params in
  let Kr := from_numpy (rotational_drag copter_params) in
  let inertia := from_numpy (frame_inertia copter_params) in
  let n := net_row w * J in
  let gyro := [n * nth 2 av 0; n * - nth 1 av 0; n * 0] in
  vsub (vadd (vsub (propeller_row w) (vmul Kr av)) gyro)
       (cross3 av (vmul inertia av)).

Definition rotor_row (dt : R) (action w : tensor1) : tensor1 :=
  let desired := map (fun x => x * max_rotor_speed copter_params)
                     (map sqrt action) in
  map (fun x => Rmax x 0)
      (vadd w (vscale (gamma copter_params dt) (vsub desired w))).

Definition step_row (dt : R) (action state : tensor1) : tensor1 :=
  let position := slice 0 3 state in
  let attitude := slice 3 6 state in
  let velocity := slice 6 9 state in
  let rotor_speed := slice 9 13 state in
  let angular_velocity := slice 17 20 state in
  let desired := map (fun x => x * max_rotor_speed copter_params)
                     (map sqrt action) in
  let rotor_speed := rotor_row dt action rotor_speed in
  let acceleration := linear_row rotor_speed attitude velocity in
  let angular_acc :=
    vdiv (angular_row rotor_speed angular_velocity)
         (from_numpy (frame_inertia copter_params)) in
  let position :=
    vadd (vadd position (vscale (0.5 * dt * dt) acceleration))
         (vscale (0.5 * dt) velocity) in
  let velocity := vadd velocity (vscale dt acceleration) in
  let angular_velocity := vadd angular_velocity (vscale dt angular_acc) in
  let attitude :=
    vadd attitude (vscale dt (euler_rate_row attitude angular_velocity)) in
  position ++ attitude ++ velocity ++ rotor_speed ++ desired
           ++ angular_velocity.

End RowDynamics.

(** ** Statements about batches *)

(** Every entry of a batch is non-negative (the domain of [torch.sqrt]). *)
Definition nonneg (t : tensor2) : Prop :=
  Forall (Forall (fun x => 0 <= x)) t.

(** The state batch with [delta] added to the position of every vehicle. *)
Definition translate (delta : tensor1) (state : tensor2) : tensor2 :=
  hstack [rows_op Rplus (cols 0 3 state) delta; cols 3 20 state].

(** A parameter set of the magnitudes of a small quadrotor, and inputs, to
    instantiate the statements with. *)
Definition sample_params : copter_params_t := {|
  mass := 0.723;
  thrust_factor := 5.723e-6;
  arm_length := 0.31;
  drag_factor := 1.717e-7;
  max_rotor_speed := 1000;
  rotor_speed_half_time := 0.0625;
  rotor_inertia := 7.321e-5;
  translational_drag := Vec3 1e-4 1e-4 1e-4;
  rotational_drag := Vec3 1e-4 1e-4 1e-4;
  frame_inertia := Vec3 8.678e-3 8.678e-3 32.1e-3;
  gravity := Vec3 0 0 (-9.81)
|}.

(** At rest at the origin but for a velocity of 1 along x. *)
Definition moving_state : tensor1 :=
  [0; 0; 0;  0; 0; 0;  1; 0; 0;  0; 0; 0; 0;  0; 0; 0; 0;  0; 0; 0].

(** The same state with another stored desired rotor speed. *)
Definition moving_state' : tensor1 :=
  [0; 0; 0;  0; 0; 0;  1; 0; 0;  0; 0; 0; 0;  5; 6; 7; 8;  0; 0; 0].

Definition hover_state : tensor1 :=
  [1; 2; 3;  0; 0; 0;  0; 0; 0;  400; 400; 400; 400;  0; 0; 0; 0;  0; 0; 0].

Definition zero_action : tensor1 := [0; 0; 0; 0].
Definition half_action : tensor1 := [0.25; 0.25; 0.25; 0.25].

(** ** [CartpoleDataset.to_torch] and the resolution of names

    A name used in a function body is looked up in the frame's local
    variables, then in the globals of the defining module, then in the
    builtins; the local variables of the caller are not consulted. *)

Module Py.

Import String.
Open Scope string_scope.

Inductive value : Type :=
| Ndarray (t : list (list R))
| Tensor (t : list (list R))
| Str (s : string)
| Module_ (name : string)
| Function (name : string)
| Class (name : string)
| Instance (cls : string).

Inductive error : Type :=
| NameError (name : string)
| TypeError (msg : string).

Definition result (A : Type) : Type := (error + A)%type.

Definition ret {A} (a : A) : result A := inr a.
Definition bind {A B} (m : result A) (k : A -> result B) : result B :=
  match m with
  | inl e => inl e
  | inr a => k a
  end.

Notation "x <- m ;; k" := (bind m (fun x => k))
  (at level 61, m at next level, right associativity).

Definition namespace : Type := list (string * value).

Fixpoint find (name : string) (ns : namespace) : option value :=
  match ns with
  | [] => None
  | (k, v) :: rest => if String.eqb name k then Some v else find name rest
  end.

Record frame : Type := {
  f_locals : namespace;
  f_globals : namespace;
  f_builtins : namespace
}.

Definition load_name (name : string) (f : frame) : result value :=
  match find name (f_locals f) with
  | Some v => ret v
  | None =>
      match find name (f_globals f) with
      | Some v => ret v
      | None =>
          match find name (f_builtins f) with
          | Some v => ret v
          | None => inl (NameError name)
          end
      end
  end.

(** The names bound at the top level of [dataset.py]. *)
Definition dataset_globals : namespace :=
  [("torch", Module_ "torch"); ("np", Module_ "numpy"); ("os", Module_ "os");
   ("trajectory_training_data", Function "trajectory_training_data");
   ("construct_states", Function "construct_states");
   ("world_to_body_matrix", Function "world_to_body_matrix");
   ("device", Str "cpu");
   ("raw_states_to_torch", Function "raw_states_to_torch");
   ("DroneDataset", Class "DroneDataset");
   ("CartpoleDataset", Class "CartpoleDataset")].

(** The builtins the module refers to. *)
Definition builtins : namespace :=
  [("len", Function "len"); ("range", Function "range")].

(** The frame of a call of a method of [dataset.py] with parameters
    [self] and [states]. *)
Definition method_frame (self states : value) : frame :=
  {| f_locals := [("self", self); ("states", states)];
     f_globals := dataset_globals;
     f_builtins := builtins |}.

(** [torch.from_numpy(x).float().to(device)] *)
Definition from_numpy_float_to (x device : value) : result value :=
  match x with
  | Ndarray t => ret (Tensor t)
  | _ => inl (TypeError "expected np.ndarray")
  end.

(** [DroneDataset.to_torch]:
    [return torch.from_numpy(states).float().to(device)] *)
Definition DroneDataset_to_torch (self states : value) : result value :=
  let f := method_frame self states in
  _ <- load_name "torch" f ;;
  x <- load_name "states" f ;;
  d <- load_name "device" f ;;
  from_numpy_float_to x d.

(** [CartpoleDataset.to_torch]:
    [return torch.from_numpy(state_arr_numpy).float().to(device)] *)
Definition CartpoleDataset_to_torch (self states : value) : result value :=
  let f := method_frame self states in
  _ <- load_name "torch" f ;;
  x <- load_name "state_arr_numpy" f ;;
  d <- load_name "device" f ;;
  from_numpy_float_to x d.

(** [CartpoleDataset.__init__], from the array [construct_states] returned:
    [state_arr_numpy] is a local variable of this frame, and the labels are
    [self.to_torch(state_arr_numpy)]. *)
Definition CartpoleDataset_init (self sampled : value) : result value :=
  let locals := [("self", self); ("state_arr_numpy", sampled)] in
  match find "state_arr_numpy" locals with
  | Some state_arr_numpy => CartpoleDataset_to_torch self state_arr_numpy
  | None => inl (NameError "state_arr_numpy")
  end.

End Py.

(** ** Further definitions *)

(** [t[i, j]] *)
Definition entry (i j : nat) (t : list (list R)) : R := nth j (nth i t []) 0.

(** Every entry of a batch is zero. *)
Definition all_zero (t : list (list R)) : Prop :=
  Forall (Forall (fun x => x = 0)) t.

(** The world-frame direction of the thrust of one vehicle: the image of
    the body z axis under the transposed rotation matrix. *)
Definition thrust_direction (attitude : list R) : list R :=
  mat_vec (transpose (rotation_of (nth 0 attitude 0) (nth 1 attitude 0)
                                  (nth 2 attitude 0)))
          [0; 0; 1].

(** The state row of a vehicle at position [(x, y, z)], level with heading
    [yaw], at rest, its four rotors at speed [w] and [w] as the stored
    desired speed. *)
Definition hover_row (w x y z yaw : R) : list R :=
  [x; y; z;  0; 0; yaw;  0; 0; 0;  w; w; w; w;  w; w; w; w;  0; 0; 0].

(** A parameter set in units in which four rotors at speed 1 balance
    gravity. *)
Definition unit_params : copter_params_t := {|
  mass := 1;
  thrust_factor := 1;
  arm_length := 1;
  drag_factor := 1;
  max_rotor_speed := 1;
  rotor_speed_half_time := 1;
  rotor_inertia := 1;
  translational_drag := Vec3 1 2 3;
  rotational_drag := Vec3 1 1 1;
  frame_inertia := Vec3 1 1 2;
  gravity := Vec3 0 0 (-4)
|}.

(** The state batch with [turns] added to the attitude of every vehicle. *)
Definition turn_attitude (turns : list R) (state : list (list R))
  : list (list R) :=
  hstack [cols 0 3 state; rows_op Rplus (cols 3 6 state) turns;
          cols 6 20 state].

(** ** [dataset.py]: normalisation and the drone dataset

    A numpy array of states is a single state (1-d) or a batch (2-d). *)

Inductive ndarray : Type :=
| Arr1 (v : list R)
| Arr2 (t : list (list R)).

(** [if len(states.shape) == 1: states = np.expand_dims(states, 0)] *)
Definition expand_states (states : ndarray) : list (list R) :=
  match states with
  | Arr1 v => [v]
  | Arr2 t => t
  end.

(** [np.mean] and [np.std] of a 1-d array; [np.std] is the square root of
    the mean of [abs(x - x.mean())**2]. *)
Definition np_mean (v : list R) : R := vsum v / INR (length v).
Definition np_std (v : list R) : R :=
  sqrt (np_mean (map (fun x => Rabs (x - np_mean v) ^ 2) v)).

(** [np.mean(t, axis=0)] and [np.std(t, axis=0)] of a 2-d array with at
    least one row: the statistics of every column. *)
Definition np_mean_axis0 (t : list (list R)) : list R :=
  map np_mean (transpose t).
Definition np_std_axis0 (t : list (list R)) : list R :=
  map np_std (transpose t).

(** [(states - mean) / std], [mean] and [std] broadcast over the rows. *)
Definition normalized (states : list (list R)) (mean std : list R)
  : list (list R) :=
  rows_op Rdiv (rows_op Rminus states mean) std.

(** The [std] that [raw_states_to_torch] returns is the number 1 when it
    does not normalize, an array otherwise. *)
Inductive std_value : Type :=
| Std_scalar (x : R)
| Std_array (v : list R).

Inductive raw_states_result : Type :=
| Tensor_only (t : list (list R))
| Tensor_mean_std (t : list (list R)) (mean : option (list R))
                  (std : std_value).

Definition raw_states_to_torch (states : ndarray) (normalize : bool)
           (std mean : option (list R)) (return_std : bool)
  : raw_states_result :=
  let states := expand_states states in
  let '(states, mean, std) :=
    if normalize then
      let std := match std with
                 | None => np_std_axis0 states
                 | Some s => s
                 end in
      let mean := match mean with
                  | None => np_mean_axis0 states
                  | Some m => m
                  end in
      (normalized states mean std, Some mean, Std_array std)
    else (states, mean, Std_scalar 1) in
  if return_std then Tensor_mean_std states mean std
  else Tensor_only states.

(** [l[i] = f(l[i])] for a list. *)
Fixpoint update_at {A : Type} (i : nat) (f : A -> A) (l : list A) : list A :=
  match l, i with
  | [], _ => []
  | x :: l', O => f x :: l'
  | x :: l', S i' => x :: update_at i' f l'
  end.

(** One round of the loop of [prepare_data]:
    [ref[:, i, :3] = ref[:, i, :3] - position] on a tensor of shape
    (N,T,k) and positions of shape (N,3). *)
Definition subtract_position_at (i : nat) (ref : list (list (list R)))
           (position : list (list R)) : list (list (list R)) :=
  zipWith (fun trajectory p =>
             update_at i (fun row => vsub (firstn 3 row) p ++ skipn 3 row)
                       trajectory)
          ref position.

(** [torch.unsqueeze(t, 3)] and [torch.squeeze(t, dim=3)] of a tensor of
    shape (N,T,k). *)
Definition unsqueeze3 (t : list (list (list R)))
  : list (list (list (list R))) :=
  map (map (map (fun x => [x]))) t.
Definition squeeze3 (t : list (list (list (list R))))
  : list (list (list R)) :=
  map (map (map (hd 0))) t.

(** [DroneDataset.prepare_data] on a batch of states of shape (N,k) and
    reference trajectories of shape (N,T,k'), with the dataset's [mean] and
    [std]: the normalized states, the references with the vehicle's
    position subtracted, and their copy meant for the body frame. *)
Definition prepare_data (mean std : list R) (states : list (list R))
           (ref_states : list (list (list R)))
  : list (list R) * list (list (list R)) * list (list (list R)) :=
  let unnormalized_position := cols 0 3 states in
  let normed_states := normalized states mean std in
  let torch_states := normed_states in
  let torch_ref_states :=
    fold_left (fun ref i => subtract_position_at i ref unnormalized_position)
              (seq 0 (length (hd [] ref_states)))
              ref_states in
  let drone_att := cols 3 6 torch_states in
  let world_to_body := world_to_body_matrix drone_att in
  let ref_states_body := unsqueeze3 torch_ref_states in
  (torch_states, torch_ref_states, squeeze3 ref_states_body).

(** The same for a single state and its one reference trajectory, which
    [prepare_data] first makes batches of one. *)
Definition prepare_data_single (mean std : list R) (state : list R)
           (ref_states : list (list R)) :=
  prepare_data mean std [state] [ref_states].

Record drone_dataset : Type := {
  ds_mean : list R;
  ds_std : list R;
  ds_states : list (list R);
  ds_ref_world : list (list (list R));
  ds_ref_body : list (list (list R))
}.

(** [DroneDataset.__init__], from the states and references that
    [trajectory_training_data] returned.  The statistics are computed from
    the states when no [mean] is given; a [mean] given without a [std]
    leaves [self.std = None], on which the division of [prepare_data]
    raises. *)
Definition DroneDataset_init (mean std : option (list R))
           (states : list (list R)) (ref_states : list (list (list R)))
  : Py.result drone_dataset :=
  let stats :=
    match mean with
    | None => (np_mean_axis0 states, Some (np_std_axis0 states))
    | Some m => (m, std)
    end in
  match stats with
  | (m, Some s) =>
      let '(torch_states, ref_world, ref_body) :=
        prepare_data m s states ref_states in
      Py.ret {| ds_mean := m; ds_std := s; ds_states := torch_states;
                ds_ref_world := ref_world; ds_ref_body := ref_body |}
  | (m, None) => inl (Py.TypeError String.EmptyString)
  end.

(** [len(dataset)] and [dataset[index]] for an index counted from 0;
    [None] stands for the [IndexError] of an index past the end. *)
Definition DroneDataset_len (d : drone_dataset) : nat := length (ds_states d).

Definition DroneDataset_getitem (d : drone_dataset) (index : nat)
  : option (list R * list (list R) * list (list R)) :=
  match nth_error (ds_states d) index,
        nth_error (ds_ref_world d) index,
        nth_error (ds_ref_body d) index with
  | Some s, Some w, Some b => Some (s, w, b)
  | _, _, _ => None
  end.

(** [CartpoleDataset.prepare_data], a static method: its frame has the
    parameter [states] only. *)
Module Cartpole.

Import String.
Open Scope string_scope.

Definition static_frame (states : Py.value) : Py.frame :=
  {| Py.f_locals := [("states", states)];
     Py.f_globals := Py.dataset_globals;
     Py.f_builtins := Py.builtins |}.

Definition prepare_data (states : ndarray) : Py.result Py.value :=
  let f := static_frame (Py.Ndarray (expand_states states)) in
  Py.bind (Py.load_name "len" f) (fun _ =>
  Py.bind (Py.load_name "states" f) (fun _ =>
  Py.bind (match states with
           | Arr1 _ => Py.load_name "np" f
           | Arr2 _ => Py.ret (Py.Module_ "numpy")
           end) (fun _ =>
  Py.bind (Py.load_name "self" f) (fun self =>
  Py.CartpoleDataset_to_torch self (Py.Ndarray (expand_states states)))))).

End Cartpole.

(** Shape (n,t,k). *)
Definition shape3 (n t k : nat) (r : list (list (list R))) : Prop :=
  length r = n /\ Forall (shape2 t k) r.

(** A row whose first three entries, a position, are moved by [delta]. *)
Definition shift_position (delta row : list R) : list R :=
  vadd (firstn 3 row) delta ++ skipn 3 row.

(** A reference row made relative to the position of a state. *)
Definition relative_to (state row : list R) : list R :=
  vsub (firstn 3 row) (firstn 3 state) ++ skipn 3 row.

(** Two states of six channels and their reference trajectories of two
    time steps, to instantiate the statements with. *)
Definition sample_states : list (list R) :=
  [[1; 2; 3; 0; 0; 0]; [3; 6; 5; 1; 2; 4]].
Definition sample_refs : list (list (list R)) :=
  [[[1; 2; 4; 7]; [1; 2; 5; 8]]; [[4; 6; 5; 7]; [5; 6; 5; 8]]].

(** Non-negativity of an explicit batch, and equality of two explicit
    tensors, entry by entry. *)
Ltac nonneg_entries :=
  repeat first [apply Forall_nil | apply Forall_cons]; lra.
Ltac equal_entries :=
  repeat (apply (f_equal2 (@cons R)); [lra |]); reflexivity.
Ltac equal_rows :=
  repeat (apply (f_equal2 (@cons (list R))); [equal_entries |]); reflexivity.

(** ** The tensor operations on small inputs *)

Example transpose_2x3 :
  transpose [[1; 2; 3]; [4; 5; 6]] = [[1; 4]; [2; 5]; [3; 6]].
Proof. reflexivity. Qed.

Example cols_1_3 : cols 1 3 [[1; 2; 3; 4]; [5; 6; 7; 8]] = [[2; 3]; [6; 7]].
Proof. reflexivity. Qed.

Example hstack_3 :
  hstack [[[1; 2]; [6; 7]]; [[3]; [8]]; [[4; 5]; [9; 10]]]
  = [[1; 2; 3; 4; 5]; [6; 7; 8; 9; 10]].
Proof. reflexivity. Qed.

Example diag_3 : diag [1; 2; 3] = [[1; 0; 0]; [0; 2; 0]; [0; 0; 3]].
Proof. reflexivity. Qed.

Example squeeze_batch_of_1 : squeeze [[[1]; [2]; [3]]] = Sq1 [1; 2; 3].
Proof. reflexivity. Qed.

Example squeeze_batch_of_2 :
  squeeze [[[1]; [2]; [3]]; [[4]; [5]; [6]]] = Sq2 [[1; 2; 3]; [4; 5; 6]].
Proof. reflexivity. Qed.

Example mat_mat_2x2 :
  mat_mat [[1; 2]; [3; 4]] [[0; 1]; [1; 0]] = [[2; 1]; [4; 3]].
Proof.
  cbv [mat_mat mat_vec dot vsum vmul transpose zipWith map fold_right].
  equal_rows.
Qed.

(** ** Lemmas on the list operations *)

Lemma zipWith_length {A B C} (f : A -> B -> C) xs ys :
  length (zipWith f xs ys) = Nat.min (length xs) (length ys).
Proof.
  revert ys; induction xs as [|x xs IH]; intros [|y ys]; cbn; auto.
Qed.

Lemma zipWith_map_l {A A' B C} (f : A' -> B -> C) (g : A -> A') xs ys :
  zipWith f (map g xs) ys = zipWith (fun x y => f (g x) y) xs ys.
Proof.
  revert ys; induction xs as [|x xs IH]; intros [|y ys]; cbn; auto.
  now rewrite IH.
Qed.

Lemma zipWith_map_r {A B B' C} (f : A -> B' -> C) (g : B -> B') xs ys :
  zipWith f xs (map g ys) = zipWith (fun x y => f x (g y)) xs ys.
Proof.
  revert ys; induction xs as [|x xs IH]; intros [|y ys]; cbn; auto.
  now rewrite IH.
Qed.

Lemma zipWith_same {A C} (f : A -> A -> C) xs :
  zipWith f xs xs = map (fun x => f x x) xs.
Proof. induction xs as [|x xs IH]; cbn; [|rewrite IH]; reflexivity. Qed.

Lemma zipWith_max_zeros r :
  zipWith Rmax r (zeros (length r)) = map (fun x => Rmax x 0) r.
Proof. induction r as [|x r IH]; cbn; [|rewrite <- IH]; reflexivity. Qed.

Lemma cols_length a b t : length (cols a b t) = length t.
Proof. apply length_map. Qed.

(** A row of known length is an explicit list. *)
Ltac explicit_row r H :=
  repeat (destruct r as [|? r]; [discriminate H|]);
  destruct r; [clear H | discriminate H].

Lemma length3_inv {A} (r : list A) :
  length r = 3%nat -> exists a b c, r = [a; b; c].
Proof. intros H. explicit_row r H. now eexists _, _, _. Qed.

(** A non-empty tensor of shape (N,3) transposes to its three columns. *)
Lemma transpose_rows3 (r : tensor1) (t : tensor2) :
  Forall (fun r => length r = 3%nat) (r :: t) ->
  transpose (r :: t) = [col 0 (r :: t); col 1 (r :: t); col 2 (r :: t)].
Proof.
  revert r; induction t as [|r' t IH]; intros r H;
    inversion H as [|? ? Hr Ht]; subst;
    destruct (length3_inv r Hr) as (a & b & c & ->).
  - reflexivity.
  - change (transpose ([a; b; c] :: r' :: t))
      with (zipWith cons [a; b; c] (transpose (r' :: t))).
    rewrite (IH r' Ht). reflexivity.
Qed.

(** [(t.t() * v).t()] on a tensor [t] of shape (N,3) and [v] of shape (N,)
    multiplies row [i] of [t] by [v[i]]. *)
Lemma transpose_mul_transpose (t : tensor2) (v : tensor1) :
  Forall (fun r => length r = 3%nat) t ->
  transpose (rows_op Rmult (transpose t) v) =
  zipWith (fun r x => map (fun y => y * x) r) t v.
Proof.
  intros H. destruct t as [|r t]; [reflexivity|].
  rewrite (transpose_rows3 r t H).
  generalize (r :: t) H. clear. intros t H.
  revert v; induction H as [|r t Hr Ht IH]; intros v.
  - destruct v; reflexivity.
  - destruct (length3_inv r Hr) as (a & b & c & ->).
    destruct v as [|x v]; [reflexivity|].
    specialize (IH v). cbn in IH |- *. rewrite <- IH. reflexivity.
Qed.

(** Subtracting, or adding a multiple of, a squeezed tensor of shape
    (N,3,1) acts row by row whatever N is. *)
Lemma msub_squeeze (t : tensor2) (x : tensor3) :
  length t = length x ->
  msub_sq t (squeeze x) = zipWith (fun r m => vsub r (map (hd 0) m)) t x.
Proof.
  intros H. destruct x as [|m [|m' x]].
  - destruct t; [reflexivity | discriminate H].
  - destruct t as [|r [|r' t]]; try discriminate H. reflexivity.
  - unfold squeeze, msub_sq, msub. now rewrite zipWith_map_r.
Qed.

Lemma madd_scale_squeeze (c : R) (t : tensor2) (x : tensor3) :
  length t = length x ->
  madd_sq t (sq_scale c (squeeze x)) =
  zipWith (fun r m => vadd r (vscale c (map (hd 0) m))) t x.
Proof.
  intros H. destruct x as [|m [|m' x]].
  - destruct t; [reflexivity | discriminate H].
  - destruct t as [|r [|r' t]]; try discriminate H. reflexivity.
  - unfold squeeze, sq_scale, madd_sq, madd, mscale.
    now rewrite !zipWith_map_r.
Qed.

(** Batch sizes of the results of the batched operations. *)
Lemma madd_length t u : length (madd t u) = Nat.min (length t) (length u).
Proof. apply zipWith_length. Qed.
Lemma msub_length t u : length (msub t u) = Nat.min (length t) (length u).
Proof. apply zipWith_length. Qed.
Lemma mscale_length c t : length (mscale c t) = length t.
Proof. apply length_map. Qed.
Lemma msquare_length t : length (msquare t) = length t.
Proof. apply length_map. Qed.
Lemma msqrt_length t : length (msqrt t) = length t.
Proof. apply length_map. Qed.
Lemma unsqueeze2_length t : length (unsqueeze2 t) = length t.
Proof. apply length_map. Qed.
Lemma rows_op_length op t v : length (rows_op op t v) = length t.
Proof. apply length_map. Qed.
Lemma op_rows_length op v t : length (op_rows op v t) = length t.
Proof. apply length_map. Qed.
Lemma mmax_zeros_length t : length (mmax_zeros t) = length t.
Proof.
  unfold mmax_zeros. rewrite zipWith_length, length_map. apply Nat.min_id.
Qed.

Create Rewrite HintDb batch_size.
#[local] Hint Rewrite @length_map @zipWith_length cols_length madd_length
  msub_length mscale_length msquare_length msqrt_length unsqueeze2_length
  rows_op_length op_rows_length mmax_zeros_length Nat.min_id : batch_size.

Ltac batch_size := autorewrite with batch_size in *; lia.

(** ** The batched functions act row by row *)

Lemma world_to_body_matrix_map att :
  world_to_body_matrix att =
  map (fun r => rotation_of (nth 0 r 0) (nth 1 r 0) (nth 2 r 0)) att.
Proof.
  induction att as [|r att IH]; [reflexivity|].
  change (world_to_body_matrix (r :: att))
    with (rotation_of (nth 0 r 0) (nth 1 r 0) (nth 2 r 0)
            :: world_to_body_matrix att).
  now rewrite IH.
Qed.

Lemma to_euler_matrix_map att :
  to_euler_matrix att =
  map (fun r => euler_matrix_of (nth 0 r 0) (nth 1 r 0)) att.
Proof.
  induction att as [|r att IH]; [reflexivity|].
  change (to_euler_matrix (r :: att))
    with (euler_matrix_of (nth 0 r 0) (nth 1 r 0) :: to_euler_matrix att).
  now rewrite IH.
Qed.

Section RowWise.

Variable P : copter_params_t.

Lemma linear_dynamics_rows rs att vel :
  length rs = length att -> length att = length vel ->
  Forall (fun r => length r = 3%nat) vel ->
  linear_dynamics P rs att vel = zipWith3 (linear_row P) rs att vel.
Proof.
  intros H1 H2 H3. unfold linear_dynamics.
  rewrite world_to_body_matrix_map.
  rewrite transpose_mul_transpose.
  2:{ rewrite !map_map. apply Forall_forall. intros r Hr.
      apply in_map_iff in Hr. destruct Hr as (a & <- & _). reflexivity. }
  rewrite msub_squeeze by batch_size.
  clear H1 H2. revert rs att.
  induction H3 as [|v vel Hv Hvel IH]; intros [|r rs] [|a att]; try reflexivity.
  destruct (length3_inv v Hv) as (v0 & v1 & v2 & ->).
  specialize (IH rs att).
  unfold rows_op, mscale, msquare, unsqueeze2 in IH |- *.
  cbn [zipWith3 map zipWith]. rewrite IH. reflexivity.
Qed.

Lemma propeller_torques_rows rs :
  propeller_torques P rs = map (propeller_row P) rs.
Proof.
  induction rs as [|r rs IH]; [reflexivity|].
  change (propeller_torques P (r :: rs))
    with (propeller_row P r :: propeller_torques P rs).
  now rewrite IH.
Qed.

Lemma angular_momentum_rows rs av :
  angular_momentum_body_frame P rs av = zipWith (angular_row P) rs av.
Proof.
  revert av; induction rs as [|r rs IH]; intros [|a av]; try reflexivity.
  change (angular_momentum_body_frame P (r :: rs) (a :: av))
    with (angular_row P r a :: angular_momentum_body_frame P rs av).
  now rewrite IH.
Qed.

Lemma euler_update_rows dt att av :
  length att = length av ->
  Forall (fun r => length r = 3%nat) av ->
  madd_sq att (sq_scale dt (euler_rate att av)) =
  zipWith (fun a w => vadd a (vscale dt (euler_rate_row a w))) att av.
Proof.
  intros H1 H2. unfold euler_rate.
  rewrite to_euler_matrix_map, madd_scale_squeeze by batch_size.
  clear H1. revert att.
  induction H2 as [|w av Hw Hav IH]; intros [|a att]; try reflexivity.
  specialize (IH att). unfold unsqueeze2 in IH |- *.
  cbn [map zipWith]. rewrite IH. reflexivity.
Qed.

Lemma mmax_zeros_map t : mmax_zeros t = map (map (fun x => Rmax x 0)) t.
Proof.
  unfold mmax_zeros. rewrite zipWith_map_r, zipWith_same.
  apply map_ext. intros r. apply zipWith_max_zeros.
Qed.

Lemma angular_row_length w av :
  length av = 3%nat -> length (angular_row P w av) = 3%nat.
Proof.
  intros H. destruct (length3_inv av H) as (a & b & c & ->). reflexivity.
Qed.

Lemma slice_length a b r :
  (b <= length r)%nat -> length (slice a b r) = (b - a)%nat.
Proof.
  intros H. unfold slice. rewrite length_firstn, length_skipn. lia.
Qed.

Lemma Forall_length_cols a b k t :
  (b <= k)%nat ->
  Forall (fun r => length r = k) t ->
  Forall (fun r => length r = (b - a)%nat) (cols a b t).
Proof.
  intros Hb H. unfold cols. apply Forall_map.
  eapply Forall_impl; [|exact H]. cbn. intros r <-. now apply slice_length.
Qed.

Lemma angular_velocity_update_shape dt (X A : tensor2) :
  Forall (fun r => length r = 3%nat) A ->
  Forall (fun r => length r = 3%nat)
    (madd A (mscale dt (rows_op Rdiv (zipWith (angular_row P) X A)
                                (from_numpy (frame_inertia P))))).
Proof.
  intros H. revert X.
  induction H as [|a A Ha HA IH]; intros [|x X];
    try (constructor; fail).
  unfold madd, mscale, rows_op in IH |- *. cbn [zipWith map].
  constructor; [|apply IH].
  pose proof (angular_row_length x a Ha) as Hx.
  destruct (length3_inv _ Hx) as (u & v & w & ->).
  destruct (length3_inv a Ha) as (a0 & a1 & a2 & ->). reflexivity.
Qed.

Theorem simulate_quadrotor_rows n action state dt :
  shape2 n 20 state -> shape2 n 4 action ->
  simulate_quadrotor P action state dt = zipWith (step_row P dt) action state.
Proof.
  intros [Hn Hs] [Hm _]. unfold simulate_quadrotor.
  assert (Hav : Forall (fun r => length r = 3%nat) (cols 17 20 state))
    by (apply (Forall_length_cols 17 20 20); [lia | exact Hs]).
  assert (Hvel : Forall (fun r => length r = 3%nat) (cols 6 9 state))
    by (apply (Forall_length_cols 6 9 20); [lia | exact Hs]).
  rewrite linear_dynamics_rows, angular_momentum_rows, euler_update_rows;
    try assumption; try batch_size;
    [|now apply angular_velocity_update_shape].
  rewrite mmax_zeros_map.
  clear. revert action.
  induction state as [|s state IH]; intros [|a action]; try reflexivity.
  specialize (IH action).
  unfold madd, msub, mscale, msqrt, rows_op, cols in IH |- *.
  cbn [hstack map zipWith zipWith3] in IH |- *.
  rewrite IH. reflexivity.
Qed.

End RowWise.

(** ** Shapes *)

Lemma shape2_cols n k a b t :
  (b <= k)%nat -> shape2 n k t -> shape2 n (b - a) (cols a b t).
Proof.
  intros Hb [Hn Hk]. split; [now rewrite cols_length|].
  now apply Forall_length_cols with (k := k).
Qed.

Lemma shape2_map n k k' (f : tensor1 -> tensor1) t :
  (forall r, length r = k -> length (f r) = k') ->
  shape2 n k t -> shape2 n k' (map f t).
Proof.
  intros Hf [Hn Hk]. split; [now rewrite length_map|].
  apply Forall_map. eapply Forall_impl; [|exact Hk]. exact Hf.
Qed.

Lemma shape2_zipWith n k1 k2 k (f : tensor1 -> tensor1 -> tensor1) t u :
  (forall r s, length r = k1 -> length s = k2 -> length (f r s) = k) ->
  shape2 n k1 t -> shape2 n k2 u -> shape2 n k (zipWith f t u).
Proof.
  intros Hf [Hn Ht] [Hm Hu]. split; [rewrite zipWith_length; lia|].
  clear Hn Hm. revert u Hu.
  induction Ht as [|r t Hr Ht IH]; intros u Hu; [constructor|].
  destruct Hu as [|s u Hs Hu]; [constructor|].
  cbn. constructor; auto.
Qed.

Lemma shape2_zipWith3 n k1 k2 k3 k
      (f : tensor1 -> tensor1 -> tensor1 -> tensor1) t u w :
  (forall r s x, length r = k1 -> length s = k2 -> length x = k3 ->
                 length (f r s x) = k) ->
  shape2 n k1 t -> shape2 n k2 u -> shape2 n k3 w ->
  shape2 n k (zipWith3 f t u w).
Proof.
  intros Hf [Hn Ht] [Hm Hu] [Hl Hw]. split.
  - subst n. clear Hf Ht Hu Hw. revert u w Hm Hl.
    induction t as [|r t IH]; intros [|s u] [|x w] Hm Hl;
      try discriminate; cbn; auto.
  - clear Hn Hm Hl. revert u w Hu Hw.
    induction Ht as [|r t Hr Ht IH]; intros u w Hu Hw; [constructor|].
    destruct Hu as [|s u Hs Hu]; [constructor|].
    destruct Hw as [|x w Hx Hw]; [constructor|].
    cbn. constructor; auto.
Qed.

Lemma vadd_length u v : length (vadd u v) = Nat.min (length u) (length v).
Proof. apply zipWith_length. Qed.
Lemma vsub_length u v : length (vsub u v) = Nat.min (length u) (length v).
Proof. apply zipWith_length. Qed.
Lemma vscale_length c v : length (vscale c v) = length v.
Proof. apply length_map. Qed.

Lemma shape2_madd n k t u :
  shape2 n k t -> shape2 n k u -> shape2 n k (madd t u).
Proof.
  apply shape2_zipWith. intros r s Hr Hs. rewrite vadd_length. lia.
Qed.

Lemma shape2_msub n k t u :
  shape2 n k t -> shape2 n k u -> shape2 n k (msub t u).
Proof.
  apply shape2_zipWith. intros r s Hr Hs. rewrite vsub_length. lia.
Qed.

Lemma shape2_mscale n k c t : shape2 n k t -> shape2 n k (mscale c t).
Proof. apply shape2_map. intros r Hr. now rewrite vscale_length. Qed.

Lemma shape2_rows_op n k op t v :
  length v = k -> shape2 n k t -> shape2 n k (rows_op op t v).
Proof.
  intros Hv. apply shape2_map. intros r Hr. rewrite zipWith_length. lia.
Qed.

Lemma shape2_mmax_zeros n k t : shape2 n k t -> shape2 n k (mmax_zeros t).
Proof.
  rewrite mmax_zeros_map. apply shape2_map. intros r Hr.
  now rewrite length_map.
Qed.

Lemma shape2_map_map n k (f : R -> R) t :
  shape2 n k t -> shape2 n k (map (map f) t).
Proof. apply shape2_map. intros r Hr. now rewrite length_map. Qed.

Lemma linear_row_length P r a v :
  length v = 3%nat -> length (linear_row P r a v) = 3%nat.
Proof.
  intros H. destruct (length3_inv v H) as (x & y & z & ->). reflexivity.
Qed.

Lemma euler_rate_row_length a w :
  length w = 3%nat -> length (euler_rate_row a w) = 3%nat.
Proof.
  intros H. destruct (length3_inv w H) as (x & y & z & ->). reflexivity.
Qed.

Lemma shape2_linear_dynamics P n k1 k2 rs att vel :
  shape2 n k1 rs -> shape2 n k2 att -> shape2 n 3 vel ->
  shape2 n 3 (linear_dynamics P rs att vel).
Proof.
  intros Hr Ha Hv.
  rewrite linear_dynamics_rows;
    try (destruct Hr, Ha, Hv; congruence || assumption).
  apply (shape2_zipWith3 n k1 k2 3 3); try assumption.
  intros r s x _ _ Hx. now apply linear_row_length.
Qed.

Lemma shape2_angular_momentum P n k rs av :
  shape2 n k rs -> shape2 n 3 av ->
  shape2 n 3 (angular_momentum_body_frame P rs av).
Proof.
  intros Hr Ha. rewrite angular_momentum_rows.
  apply (shape2_zipWith n k 3 3); try assumption.
  intros r s _ Hs. now apply angular_row_length.
Qed.

Lemma shape2_euler_update n dt att av :
  shape2 n 3 att -> shape2 n 3 av ->
  shape2 n 3 (madd_sq att (sq_scale dt (euler_rate att av))).
Proof.
  intros Ha Hw.
  rewrite euler_update_rows; try (destruct Ha, Hw; congruence || assumption).
  apply (shape2_zipWith n 3 3 3); try assumption.
  intros r s Hr Hs.
  rewrite vadd_length, vscale_length, euler_rate_row_length; auto.
  rewrite Hr. reflexivity.
Qed.

(** Slicing a horizontal stack. *)
Lemma slice_app_l k r s : length r = k -> slice 0 k (r ++ s) = r.
Proof.
  intros <-. unfold slice. cbn. rewrite Nat.sub_0_r, firstn_app, Nat.sub_diag.
  cbn. now rewrite firstn_all, app_nil_r.
Qed.

Lemma slice_app_r k a b r s :
  length r = k -> slice (k + a) (k + b) (r ++ s) = slice a b s.
Proof.
  intros <-. unfold slice. rewrite skipn_app, skipn_all2 by lia. cbn.
  f_equal; [lia | f_equal; lia].
Qed.

Lemma cols_hstack_l n k t u :
  shape2 n k t -> length u = n -> cols 0 k (zipWith (@app R) t u) = t.
Proof.
  intros [Hn Hk] Hu. subst n. revert u Hu.
  induction Hk as [|r t Hr Ht IH]; intros [|s u] Hu; try discriminate;
    [reflexivity|].
  cbn [zipWith cols map]. rewrite slice_app_l by assumption.
  f_equal. apply IH. now injection Hu.
Qed.

Lemma cols_hstack_r n k a b t u :
  shape2 n k t -> length u = n ->
  cols (k + a) (k + b) (zipWith (@app R) t u) = cols a b u.
Proof.
  intros [Hn Hk] Hu. subst n. revert u Hu.
  induction Hk as [|r t Hr Ht IH]; intros [|s u] Hu; try discriminate;
    [reflexivity|].
  cbn [zipWith cols map]. rewrite slice_app_r by assumption.
  f_equal. apply IH. now injection Hu.
Qed.

Lemma shape2_hstack n k1 k2 t u :
  shape2 n k1 t -> shape2 n k2 u ->
  shape2 n (k1 + k2) (zipWith (@app R) t u).
Proof.
  apply shape2_zipWith. intros r s <- <-. apply length_app.
Qed.

Lemma cols_hstack6 n (p a v w d o : tensor2) :
  shape2 n 3 p -> shape2 n 3 a -> shape2 n 3 v -> shape2 n 4 w ->
  shape2 n 4 d -> shape2 n 3 o ->
  cols 0 3 (hstack [p; a; v; w; d; o]) = p /\
  cols 3 6 (hstack [p; a; v; w; d; o]) = a /\
  cols 6 9 (hstack [p; a; v; w; d; o]) = v /\
  cols 9 13 (hstack [p; a; v; w; d; o]) = w /\
  cols 13 17 (hstack [p; a; v; w; d; o]) = d /\
  cols 17 20 (hstack [p; a; v; w; d; o]) = o.
Proof.
  intros Hp Ha Hv Hw Hd Ho. cbn [hstack].
  pose proof (shape2_hstack _ _ _ _ _ Hd Ho) as H5.
  pose proof (shape2_hstack _ _ _ _ _ Hw H5) as H4.
  pose proof (shape2_hstack _ _ _ _ _ Hv H4) as H3.
  pose proof (shape2_hstack _ _ _ _ _ Ha H3) as H2.
  destruct Ho as [Ho1 Ho2].
  destruct H5 as [L5 _], H4 as [L4 _], H3 as [L3 _], H2 as [L2 _].
  repeat split.
  - now apply cols_hstack_l with (n := n).
  - etransitivity; [exact (cols_hstack_r n 3 0 3 _ _ Hp L2)|].
    now apply cols_hstack_l with (n := n).
  - etransitivity; [exact (cols_hstack_r n 3 3 6 _ _ Hp L2)|].
    etransitivity; [exact (cols_hstack_r n 3 0 3 _ _ Ha L3)|].
    now apply cols_hstack_l with (n := n).
  - etransitivity; [exact (cols_hstack_r n 3 6 10 _ _ Hp L2)|].
    etransitivity; [exact (cols_hstack_r n 3 3 7 _ _ Ha L3)|].
    etransitivity; [exact (cols_hstack_r n 3 0 4 _ _ Hv L4)|].
    now apply cols_hstack_l with (n := n).
  - etransitivity; [exact (cols_hstack_r n 3 10 14 _ _ Hp L2)|].
    etransitivity; [exact (cols_hstack_r n 3 7 11 _ _ Ha L3)|].
    etransitivity; [exact (cols_hstack_r n 3 4 8 _ _ Hv L4)|].
    etransitivity; [exact (cols_hstack_r n 4 0 4 _ _ Hw L5)|].
    now apply cols_hstack_l with (n := n).
  - etransitivity; [exact (cols_hstack_r n 3 14 17 _ _ Hp L2)|].
    etransitivity; [exact (cols_hstack_r n 3 11 14 _ _ Ha L3)|].
    etransitivity; [exact (cols_hstack_r n 3 8 11 _ _ Hv L4)|].
    etransitivity; [exact (cols_hstack_r n 4 4 7 _ _ Hw L5)|].
    etransitivity; [exact (cols_hstack_r n 4 0 3 _ _ Hd Ho1)|].
    unfold cols. rewrite <- (map_id o) at 2. apply map_ext_Forall.
    eapply Forall_impl; [|exact Ho2]. intros r Hr.
    destruct (length3_inv r Hr) as (x & y & z & ->). reflexivity.
Qed.

Lemma shape2_hstack6 n (p a v w d o : tensor2) :
  shape2 n 3 p -> shape2 n 3 a -> shape2 n 3 v -> shape2 n 4 w ->
  shape2 n 4 d -> shape2 n 3 o ->
  shape2 n 20 (hstack [p; a; v; w; d; o]).
Proof.
  intros Hp Ha Hv Hw Hd Ho. cbn [hstack].
  exact (shape2_hstack _ _ _ _ _ Hp
          (shape2_hstack _ _ _ _ _ Ha
            (shape2_hstack _ _ _ _ _ Hv
              (shape2_hstack _ _ _ _ _ Hw
                (shape2_hstack _ _ _ _ _ Hd Ho))))).
Qed.

(** ** The blocks of the state returned by one step *)

Section Blocks.

Variable P : copter_params_t.
Variables (n : nat) (action state : tensor2) (dt : R).
Hypothesis Hstate : shape2 n 20 state.
Hypothesis Haction : shape2 n 4 action.

Let rotor' := updated_rotor_speed P dt action (cols 9 13 state).
Let acceleration :=
  linear_dynamics P rotor' (cols 3 6 state) (cols 6 9 state).
Let angular_acc :=
  rows_op Rdiv
          (angular_momentum_body_frame P rotor' (cols 17 20 state))
          (from_numpy (frame_inertia P)).
Let angular' := madd (cols 17 20 state) (mscale dt angular_acc).

Lemma shape2_desired_speed : shape2 n 4 (desired_speed P action).
Proof.
  unfold desired_speed, msqrt. now apply shape2_map_map, shape2_map_map.
Qed.

Lemma shape2_rotor' : shape2 n 4 rotor'.
Proof.
  pose proof (shape2_cols n 20 9 13 state ltac:(lia) Hstate) as H.
  apply shape2_mmax_zeros, shape2_madd; [exact H|].
  apply shape2_mscale, shape2_msub; [apply shape2_desired_speed | exact H].
Qed.

Lemma shape2_acceleration : shape2 n 3 acceleration.
Proof.
  apply (shape2_linear_dynamics P n 4 3).
  - apply shape2_rotor'.
  - exact (shape2_cols n 20 3 6 state ltac:(lia) Hstate).
  - exact (shape2_cols n 20 6 9 state ltac:(lia) Hstate).
Qed.

Lemma shape2_angular' : shape2 n 3 angular'.
Proof.
  pose proof (shape2_cols n 20 17 20 state ltac:(lia) Hstate) as H.
  apply shape2_madd; [exact H|].
  apply shape2_mscale, shape2_rows_op; [reflexivity|].
  apply (shape2_angular_momentum P n 4); [apply shape2_rotor' | exact H].
Qed.

Lemma simulate_quadrotor_blocks :
  let out := simulate_quadrotor P action state dt in
  cols 0 3 out =
    madd (madd (cols 0 3 state) (mscale (0.5 * dt * dt) acceleration))
         (mscale (0.5 * dt) (cols 6 9 state)) /\
  cols 3 6 out =
    madd_sq (cols 3 6 state)
            (sq_scale dt (euler_rate (cols 3 6 state) angular')) /\
  cols 6 9 out = madd (cols 6 9 state) (mscale dt acceleration) /\
  cols 9 13 out = rotor' /\
  cols 13 17 out = desired_speed P action /\
  cols 17 20 out = angular'.
Proof.
  pose proof (shape2_cols n 20 0 3 state ltac:(lia) Hstate) as Hp.
  pose proof (shape2_cols n 20 3 6 state ltac:(lia) Hstate) as Ha.
  pose proof (shape2_cols n 20 6 9 state ltac:(lia) Hstate) as Hv.
  apply (cols_hstack6 n).
  - apply shape2_madd; [apply shape2_madd; [exact Hp|] |];
      apply shape2_mscale; [apply shape2_acceleration | exact Hv].
  - apply shape2_euler_update; [exact Ha | apply shape2_angular'].
  - apply shape2_madd; [exact Hv|]. apply shape2_mscale, shape2_acceleration.
  - apply shape2_rotor'.
  - apply shape2_desired_speed.
  - apply shape2_angular'.
Qed.

Lemma shape2_simulate_quadrotor :
  shape2 n 20 (simulate_quadrotor P action state dt).
Proof.
  pose proof (shape2_cols n 20 0 3 state ltac:(lia) Hstate) as Hp.
  pose proof (shape2_cols n 20 3 6 state ltac:(lia) Hstate) as Ha.
  pose proof (shape2_cols n 20 6 9 state ltac:(lia) Hstate) as Hv.
  apply (shape2_hstack6 n).
  - apply shape2_madd; [apply shape2_madd; [exact Hp|] |];
      apply shape2_mscale; [apply shape2_acceleration | exact Hv].
  - apply shape2_euler_update; [exact Ha | apply shape2_angular'].
  - apply shape2_madd; [exact Hv|]. apply shape2_mscale, shape2_acceleration.
  - apply shape2_rotor'.
  - apply shape2_desired_speed.
  - apply shape2_angular'.
Qed.

End Blocks.

(** ** Frame transform: orthonormality *)

Lemma rotation_orthonormal roll pitch yaw :
  mat_mat (rotation_of roll pitch yaw) (transpose (rotation_of roll pitch yaw))
  = identity3.
Proof.
  pose proof (sin2_cos2 roll) as Hr.
  pose proof (sin2_cos2 pitch) as Hp.
  pose proof (sin2_cos2 yaw) as Hy.
  unfold Rsqr in *.
  unfold rotation_of, identity3, mat_mat, mat_vec, dot, vsum, vmul.
  cbn [transpose zipWith map fold_right].
  repeat f_equal; nsatz.
Qed.

(** C6. For every attitude batch (rows [roll, pitch, yaw] of arbitrary
    values), every matrix of [world_to_body_matrix] multiplied by its own
    transpose is the 3x3 identity matrix. *)
Theorem world_to_body_matrix_orthonormal (attitude : tensor2) :
  Forall (fun r => length r = 3%nat) attitude ->
  length (world_to_body_matrix attitude) = length attitude /\
  Forall (fun M => mat_mat M (transpose M) = identity3)
         (world_to_body_matrix attitude).
Proof.
  intros _. rewrite world_to_body_matrix_map. split; [apply length_map|].
  apply Forall_map, Forall_forall. intros r _. apply rotation_orthonormal.
Qed.

Lemma world_to_body_matrix_orthonormal_witness :
  length (world_to_body_matrix [[0.1; -0.2; 3]; [1; 2; 4]]) = 2%nat /\
  Forall (fun M => mat_mat M (transpose M) = identity3)
         (world_to_body_matrix [[0.1; -0.2; 3]; [1; 2; 4]]).
Proof.
  apply (world_to_body_matrix_orthonormal [[0.1; -0.2; 3]; [1; 2; 4]]).
  repeat constructor.
Defined.

(** ** Propeller torques *)

Lemma col_map_nth j (f : tensor1 -> tensor1) t :
  col j (map f t) = map (fun r => nth j (f r) 0) t.
Proof. unfold col. now rewrite map_map. Qed.

(** C2, as the code has it.  For every rotor-speed batch, the yaw (third)
    component of [propeller_torques] is [drag_factor] times
    [w3^2 + w1^2 - w2^2 - w0^2], where [w0 .. w3] are the four rotor speeds
    of the row: the squared speeds enter, with rotors 1 and 3 counted
    positively. *)
Theorem propeller_torques_yaw (P : copter_params_t) (rotor_speeds : tensor2) :
  Forall (fun r => length r = 4%nat) rotor_speeds ->
  col 2 (propeller_torques P rotor_speeds) =
  map (fun w => drag_factor P *
                (nth 3 w 0 ^ 2 + nth 1 w 0 ^ 2 - nth 2 w 0 ^ 2 - nth 0 w 0 ^ 2))
      rotor_speeds.
Proof.
  intros H. rewrite propeller_torques_rows, col_map_nth.
  apply map_ext_Forall. eapply Forall_impl; [|exact H].
  intros w Hw.
  do 4 (destruct w as [|? w]; [discriminate Hw|]). reflexivity.
Qed.

Lemma propeller_torques_yaw_witness :
  col 2 (propeller_torques sample_params [[2; 0; 0; 0]]) =
  map (fun w => drag_factor sample_params *
                (nth 3 w 0 ^ 2 + nth 1 w 0 ^ 2 - nth 2 w 0 ^ 2 - nth 0 w 0 ^ 2))
      [[2; 0; 0; 0]].
Proof.
  apply (propeller_torques_yaw sample_params [[2; 0; 0; 0]]).
  repeat constructor.
Defined.

(** C2, as stated, fails: with rotor speeds [2, 0, 0, 0] the yaw torque is
    not [drag_factor] times the net rotor speed [w0 - w1 + w2 - w3]. *)
Lemma propeller_torques_yaw_not_net_speed :
  col 2 (propeller_torques sample_params [[2; 0; 0; 0]]) <>
  vscale (drag_factor sample_params) (net_rotor_speed [[2; 0; 0; 0]]).
Proof.
  cbv [col propeller_torques net_rotor_speed msquare vscale vsub vadd zipWith
       transpose map nth sample_params drag_factor arm_length thrust_factor].
  intros H. injection H as H. lra.
Qed.

(** ** Name resolution in [CartpoleDataset.to_torch] *)

Section NameResolution.

Import String.
Local Open Scope string_scope.

(** C10. Whatever its arguments, [CartpoleDataset.to_torch] ends in a
    [NameError] for [state_arr_numpy]: it never returns a value. *)
Theorem CartpoleDataset_to_torch_name_error (self states : Py.value) :
  Py.CartpoleDataset_to_torch self states
  = inl (Py.NameError "state_arr_numpy") /\
  (forall v, Py.CartpoleDataset_to_torch self states <> inr v).
Proof.
  assert (E : Py.CartpoleDataset_to_torch self states
              = inl (Py.NameError "state_arr_numpy")) by reflexivity.
  split; [exact E|]. intros v. rewrite E. discriminate.
Qed.

(** The array that [__init__] holds in its local [state_arr_numpy] does not
    help: the call [self.to_torch(state_arr_numpy)] fails the same way. *)
Lemma CartpoleDataset_init_name_error (self sampled : Py.value) :
  Py.CartpoleDataset_init self sampled = inl (Py.NameError "state_arr_numpy").
Proof. reflexivity. Qed.

(** The sibling [DroneDataset.to_torch] reads its parameter and returns. *)
Lemma DroneDataset_to_torch_returns self t :
  Py.DroneDataset_to_torch self (Py.Ndarray t) = inr (Py.Tensor t).
Proof. reflexivity. Qed.

End NameResolution.

(** ** One step of the integrator *)

Lemma vadd_vscale_0 (r s : tensor1) :
  length s = length r -> vadd r (vscale 0 s) = r.
Proof.
  revert s; induction r as [|x r IH]; intros [|y s] H; try discriminate;
    [reflexivity|].
  cbn. f_equal; [ring | apply IH; now injection H].
Qed.

Lemma zipWith_vadd_vscale_0 n k k' (f : tensor1 -> tensor1 -> tensor1) t u :
  (forall r s, length r = k -> length s = k' -> length (f r s) = k) ->
  shape2 n k t -> shape2 n k' u ->
  zipWith (fun r s => vadd r (vscale 0 (f r s))) t u = t.
Proof.
  intros Hf [Hn Ht] [Hm Hu]. subst n. revert u Hm Hu.
  induction Ht as [|r t Hr Ht IH]; intros [|s u] Hm Hu; try discriminate;
    [reflexivity|].
  inversion Hu; subst. cbn. f_equal.
  - apply vadd_vscale_0. rewrite Hf; auto.
  - apply IH; [now injection Hm | assumption].
Qed.

Lemma madd_mscale_0 n k t u :
  shape2 n k t -> shape2 n k u -> madd t (mscale 0 u) = t.
Proof.
  intros Ht Hu. unfold madd, mscale. rewrite zipWith_map_r.
  apply (zipWith_vadd_vscale_0 n k k (fun _ s => s)); auto.
Qed.

Lemma gamma_0 P : gamma P 0 = 0.
Proof.
  unfold gamma, Rdiv. rewrite Rmult_0_l.
  unfold Rpower. rewrite Rmult_0_l, exp_0. ring.
Qed.

Lemma rotor_update_rows g mx (a w : tensor1) :
  map (fun x => Rmax x 0)
      (vadd w (vscale g (vsub (map (fun x => x * mx) (map sqrt a)) w))) =
  zipWith (fun x y => Rmax (y + g * (sqrt x * mx - y)) 0) a w.
Proof.
  revert w; induction a as [|x a IH]; intros [|y w]; try reflexivity.
  cbn. f_equal. apply IH.
Qed.

Lemma updated_rotor_speed_rows P dt action rotor_speed :
  updated_rotor_speed P dt action rotor_speed =
  zipWith (zipWith (fun x y =>
             Rmax (y + gamma P dt * (sqrt x * max_rotor_speed P - y)) 0))
          action rotor_speed.
Proof.
  unfold updated_rotor_speed, desired_speed, msqrt.
  rewrite mmax_zeros_map.
  revert rotor_speed; induction action as [|a action IH];
    intros [|w rotor_speed]; try reflexivity.
  specialize (IH rotor_speed). unfold madd, mscale, msub in IH |- *.
  cbn [map zipWith] in IH |- *. rewrite IH. f_equal.
  apply rotor_update_rows.
Qed.

Lemma nonneg_mmax_zeros t : nonneg (mmax_zeros t).
Proof.
  rewrite mmax_zeros_map. unfold nonneg.
  apply Forall_map, Forall_forall. intros r _.
  apply Forall_map, Forall_forall. intros x _. apply Rmax_r.
Qed.

(** C4. For a non-negative action batch, the rotor-speed block of the state
    returned by the step is, entry by entry,
    [max(w + gamma * (desired - w), 0)] with [desired = sqrt(action) *
    max_rotor_speed], [gamma = 1 - 0.5^(dt / rotor_speed_half_time)] and [w]
    the rotor speed of the input state. *)
Theorem rotor_speed_update (P : copter_params_t) (n : nat)
        (action state : tensor2) (dt : R) :
  params_ok P -> shape2 n 20 state -> shape2 n 4 action -> nonneg action ->
  cols 9 13 (simulate_quadrotor P action state dt) =
  zipWith (zipWith (fun a w =>
             let desired := sqrt a * max_rotor_speed P in
             let gamma := 1 - Rpower 0.5 (dt / rotor_speed_half_time P) in
             Rmax (w + gamma * (desired - w)) 0))
          action (cols 9 13 state).
Proof.
  intros _ Hs Ha _.
  destruct (simulate_quadrotor_blocks P n action state dt Hs Ha)
    as (_ & _ & _ & H & _).
  rewrite H. apply updated_rotor_speed_rows.
Qed.

Lemma shape2_rows1 k (r : tensor1) : length r = k -> shape2 1 k [r].
Proof. intros H. split; [reflexivity | now repeat constructor]. Qed.

Lemma rotor_speed_update_witness :
  cols 9 13 (simulate_quadrotor sample_params [half_action] [hover_state] 0.02)
  = [map (fun w => Rmax (w + (1 - Rpower 0.5 (0.02 / 0.0625))
                             * (sqrt 0.25 * 1000 - w)) 0)
         [400; 400; 400; 400]].
Proof.
  apply (rotor_speed_update sample_params 1 [half_action] [hover_state] 0.02).
  - split; cbn; lra.
  - now apply shape2_rows1.
  - now apply shape2_rows1.
  - nonneg_entries.
Defined.

Lemma nonneg_rotor_block P n action state dt :
  shape2 n 20 state -> shape2 n 4 action ->
  nonneg (cols 9 13 (simulate_quadrotor P action state dt)).
Proof.
  intros Hs Ha.
  destruct (simulate_quadrotor_blocks P n action state dt Hs Ha)
    as (_ & _ & _ & H & _).
  rewrite H. apply nonneg_mmax_zeros.
Qed.

Lemma shape2_simulate_steps P n actions state dt :
  shape2 n 20 state -> Forall (shape2 n 4) actions ->
  shape2 n 20 (simulate_steps P actions state dt).
Proof.
  intros Hs Ha. revert state Hs.
  induction Ha as [|a actions Ha Hactions IH]; intros state Hs; [exact Hs|].
  cbn. apply IH. now apply shape2_simulate_quadrotor.
Qed.

(** C5. For every state batch, non-negative action batch and [dt >= 0],
    the four rotor speeds of every row returned by the step are [>= 0]; and
    so are those of the state reached after any positive number of steps,
    each on the state the previous one returned. *)
Theorem rotor_speed_nonneg (P : copter_params_t) (n : nat)
        (state : tensor2) (dt : R) :
  params_ok P -> shape2 n 20 state -> 0 <= dt ->
  (forall action,
      shape2 n 4 action -> nonneg action ->
      shape2 n 4 (cols 9 13 (simulate_quadrotor P action state dt)) /\
      nonneg (cols 9 13 (simulate_quadrotor P action state dt))) /\
  (forall actions,
      actions <> [] ->
      Forall (shape2 n 4) actions -> Forall nonneg actions ->
      shape2 n 4 (cols 9 13 (simulate_steps P actions state dt)) /\
      nonneg (cols 9 13 (simulate_steps P actions state dt))).
Proof.
  intros _ Hs _. split.
  - intros action Ha _. split; [|now apply (nonneg_rotor_block P n)].
    apply (shape2_cols n 20 9 13); [lia|].
    now apply shape2_simulate_quadrotor.
  - intros actions Hne Ha _. revert state Hs.
    induction Ha as [|a actions Ha Hactions IH]; intros state Hs;
      [contradiction|].
    pose proof (shape2_simulate_quadrotor P n a state dt Hs Ha) as Hs'.
    destruct actions as [|a' actions].
    + cbn. split; [|now apply (nonneg_rotor_block P n)].
      apply (shape2_cols n 20 9 13); [lia | exact Hs'].
    + apply (IH ltac:(discriminate) _ Hs').
Qed.

Lemma rotor_speed_nonneg_witness :
  nonneg (cols 9 13 (simulate_steps sample_params
                       [[zero_action]; [half_action]; [zero_action]]
                       [hover_state] 0.02)).
Proof.
  apply (rotor_speed_nonneg sample_params 1 [hover_state] 0.02).
  - split; cbn; lra.
  - now apply shape2_rows1.
  - lra.
  - discriminate.
  - repeat constructor.
  - nonneg_entries.
Defined.

(** C7. With [dt = 0] and a non-negative action, the position, attitude,
    velocity and angular-velocity blocks of the returned state are those of
    the input state, and [gamma] is exactly 0 at [dt = 0]. *)
Theorem zero_timestep (P : copter_params_t) (n : nat)
        (action state : tensor2) :
  params_ok P -> shape2 n 20 state -> shape2 n 4 action -> nonneg action ->
  let out := simulate_quadrotor P action state 0 in
  cols 0 3 out = cols 0 3 state /\
  cols 3 6 out = cols 3 6 state /\
  cols 6 9 out = cols 6 9 state /\
  cols 17 20 out = cols 17 20 state /\
  gamma P 0 = 0.
Proof.
  intros _ Hs Ha _.
  pose proof (shape2_cols n 20 0 3 state ltac:(lia) Hs) as Hp.
  pose proof (shape2_cols n 20 3 6 state ltac:(lia) Hs) as Hatt.
  pose proof (shape2_cols n 20 6 9 state ltac:(lia) Hs) as Hv.
  pose proof (shape2_cols n 20 17 20 state ltac:(lia) Hs) as Hw.
  pose proof (shape2_acceleration P n action state 0 Hs Ha) as Hacc.
  pose proof (shape2_angular' P n action state 0 Hs Ha) as Hang.
  destruct (simulate_quadrotor_blocks P n action state 0 Hs Ha)
    as (H1 & H2 & H3 & _ & _ & H6).
  cbv zeta.
  assert (Eav : madd (cols 17 20 state)
                  (mscale 0
                     (rows_op Rdiv
                        (angular_momentum_body_frame P
                           (updated_rotor_speed P 0 action (cols 9 13 state))
                           (cols 17 20 state))
                        (from_numpy (frame_inertia P))))
                = cols 17 20 state).
  { apply (madd_mscale_0 n 3); [exact Hw|].
    apply shape2_rows_op; [reflexivity|].
    apply (shape2_angular_momentum P n 4); [|exact Hw].
    now apply shape2_rotor'. }
  repeat split.
  - rewrite H1.
    replace (0.5 * 0 * 0) with 0 by lra. replace (0.5 * 0) with 0 by lra.
    rewrite (madd_mscale_0 n 3 _ _ Hp Hacc).
    now apply (madd_mscale_0 n 3).
  - rewrite H2, Eav.
    rewrite euler_update_rows; [| destruct Hatt, Hw; congruence | apply Hw].
    apply (zipWith_vadd_vscale_0 n 3 3); [|exact Hatt|exact Hw].
    intros r s _ Hl. now apply euler_rate_row_length.
  - rewrite H3. now apply (madd_mscale_0 n 3).
  - rewrite H6. exact Eav.
  - apply gamma_0.
Qed.

Lemma zero_timestep_witness :
  cols 0 3 (simulate_quadrotor sample_params [half_action] [hover_state] 0)
  = [[1; 2; 3]].
Proof.
  apply (zero_timestep sample_params 1 [half_action] [hover_state]).
  - split; cbn; lra.
  - now apply shape2_rows1.
  - now apply shape2_rows1.
  - nonneg_entries.
Defined.

Lemma slice_slice a b c d r :
  (c + b <= d)%nat -> slice a b (slice c d r) = slice (c + a) (c + b) r.
Proof.
  intros H. unfold slice.
  rewrite skipn_firstn_comm, firstn_firstn, skipn_skipn.
  f_equal; [lia | f_equal; lia].
Qed.

Lemma cols_cols a b c d t :
  (c + b <= d)%nat -> cols a b (cols c d t) = cols (c + a) (c + b) t.
Proof.
  intros H. unfold cols. rewrite map_map. apply map_ext.
  intros r. now apply slice_slice.
Qed.

Lemma desired_speed_map P action :
  desired_speed P action =
  map (map (fun a => sqrt a * max_rotor_speed P)) action.
Proof.
  unfold desired_speed, msqrt. rewrite map_map. apply map_ext.
  intros r. now rewrite map_map.
Qed.

(** C8. Two input states that agree outside the desired-rotor-speed block
    (columns 13 to 17) give the same output for every action and [dt], and
    the desired-rotor-speed block of the output is
    [sqrt(action) * max_rotor_speed], whatever the input stored there. *)
Theorem desired_rotor_speed_not_read (P : copter_params_t) (n : nat)
        (action state1 state2 : tensor2) (dt : R) :
  params_ok P ->
  shape2 n 20 state1 -> shape2 n 20 state2 -> shape2 n 4 action ->
  cols 0 13 state1 = cols 0 13 state2 ->
  cols 17 20 state1 = cols 17 20 state2 ->
  simulate_quadrotor P action state1 dt =
  simulate_quadrotor P action state2 dt /\
  cols 13 17 (simulate_quadrotor P action state1 dt) =
  map (map (fun a => sqrt a * max_rotor_speed P)) action.
Proof.
  intros _ H1 H2 Ha E E'. split.
  - assert (B : forall a b, (b <= 13)%nat ->
                            cols a b state1 = cols a b state2).
    { intros a b Hb.
      pose proof (cols_cols a b 0 13 state1 ltac:(lia)) as E1.
      pose proof (cols_cols a b 0 13 state2 ltac:(lia)) as E2.
      cbn [Nat.add] in E1, E2. now rewrite <- E1, <- E2, E. }
    unfold simulate_quadrotor.
    rewrite (B 0 3)%nat, (B 3 6)%nat, (B 6 9)%nat, (B 9 13)%nat, E' by lia. reflexivity.
  - destruct (simulate_quadrotor_blocks P n action state1 dt H1 Ha)
      as (_ & _ & _ & _ & H & _).
    rewrite H. apply desired_speed_map.
Qed.

Lemma desired_rotor_speed_not_read_witness :
  simulate_quadrotor sample_params [zero_action] [moving_state] 0.02 =
  simulate_quadrotor sample_params [zero_action] [moving_state'] 0.02.
Proof.
  apply (desired_rotor_speed_not_read sample_params 1 [zero_action]
           [moving_state] [moving_state'] 0.02).
  - split; cbn; lra.
  - now apply shape2_rows1.
  - now apply shape2_rows1.
  - now apply shape2_rows1.
  - reflexivity.
  - reflexivity.
Defined.

(** *** Translation of the position *)

Lemma vadd_shift (r d x y : tensor1) :
  vadd (vadd (vadd r d) x) y = vadd (vadd (vadd r x) y) d.
Proof.
  revert d x y; induction r as [|a r IH]; intros [|b d] [|u x] [|v y];
    try reflexivity.
  cbn. f_equal; [ring | apply IH].
Qed.

Lemma madd_shift (p x y : tensor2) (d : tensor1) :
  madd (madd (rows_op Rplus p d) x) y = rows_op Rplus (madd (madd p x) y) d.
Proof.
  revert x y; induction p as [|r p IH]; intros [|u x] [|v y];
    try reflexivity.
  specialize (IH x y). unfold madd, rows_op in IH |- *.
  cbn [map zipWith] in IH |- *. rewrite IH. f_equal. apply vadd_shift.
Qed.

Lemma translate_blocks n delta state :
  length delta = 3%nat -> shape2 n 20 state ->
  cols 0 3 (translate delta state) = rows_op Rplus (cols 0 3 state) delta /\
  forall a b, (3 <= a)%nat -> (a <= b)%nat -> (b <= 20)%nat ->
              cols a b (translate delta state) = cols a b state.
Proof.
  intros Hd Hs.
  pose proof (shape2_cols n 20 0 3 state ltac:(lia) Hs) as Hp.
  pose proof (shape2_cols n 20 3 20 state ltac:(lia) Hs) as Ht.
  pose proof (shape2_rows_op n 3 Rplus _ delta Hd Hp) as Hp'.
  unfold translate. cbn [hstack]. split.
  - apply (cols_hstack_l n 3); [exact Hp' | apply Ht].
  - intros a b Hle Hab Hb.
    pose proof (cols_hstack_r n 3 (a - 3) (b - 3) _ _ Hp' (proj1 Ht)) as E.
    rewrite cols_cols in E by lia.
    replace (3 + (a - 3))%nat with a in E by lia.
    replace (3 + (b - 3))%nat with b in E by lia.
    exact E.
Qed.

Lemma firstn_plus {A} m k (l : list A) :
  firstn (m + k) l = firstn m l ++ firstn k (skipn m l).
Proof.
  revert l; induction m as [|m IH]; intros [|x l]; cbn;
    try reflexivity.
  - now destruct k.
  - now rewrite IH.
Qed.

Lemma slice_split a b c r :
  (a <= b)%nat -> (b <= c)%nat -> slice a c r = slice a b r ++ slice b c r.
Proof.
  intros Hab Hbc. unfold slice.
  replace (c - a)%nat with ((b - a) + (c - b))%nat by lia.
  rewrite firstn_plus, skipn_skipn. do 3 f_equal. lia.
Qed.

Lemma cols_split a b c t :
  (a <= b)%nat -> (b <= c)%nat ->
  cols a c t = zipWith (@app R) (cols a b t) (cols b c t).
Proof.
  intros Hab Hbc. unfold cols.
  rewrite zipWith_map_l, zipWith_map_r, zipWith_same.
  apply map_ext. intros r. now apply slice_split.
Qed.

Lemma cols_3_20_blocks t :
  cols 3 20 t =
  hstack [cols 3 6 t; cols 6 9 t; cols 9 13 t; cols 13 17 t; cols 17 20 t].
Proof.
  cbn [hstack].
  rewrite <- (cols_split 13 17 20), <- (cols_split 9 13 20),
    <- (cols_split 6 9 20), <- (cols_split 3 6 20) by lia.
  reflexivity.
Qed.

(** C9. Adding [delta] to the position block of the input state adds
    [delta] to the position block of the output and leaves columns 3 to 20
    of the output as they are. *)
Theorem translation_equivariance (P : copter_params_t) (n : nat)
        (action state : tensor2) (dt : R) (delta : tensor1) :
  params_ok P -> shape2 n 20 state -> shape2 n 4 action ->
  length delta = 3%nat ->
  let out := simulate_quadrotor P action state dt in
  let out' := simulate_quadrotor P action (translate delta state) dt in
  cols 0 3 out' = rows_op Rplus (cols 0 3 out) delta /\
  cols 3 20 out' = cols 3 20 out.
Proof.
  intros _ Hs Ha Hd out out'.
  destruct (translate_blocks n delta state Hd Hs) as [T0 T].
  assert (Hs' : shape2 n 20 (translate delta state)).
  { pose proof (shape2_cols n 20 0 3 state ltac:(lia) Hs) as Hp.
    pose proof (shape2_cols n 20 3 20 state ltac:(lia) Hs) as Ht.
    pose proof (shape2_rows_op n 3 Rplus _ delta Hd Hp) as Hp'.
    exact (shape2_hstack n 3 17 _ _ Hp' Ht). }
  destruct (simulate_quadrotor_blocks P n action state dt Hs Ha)
    as (B1 & B2 & B3 & B4 & B5 & B6).
  destruct (simulate_quadrotor_blocks P n action _ dt Hs' Ha)
    as (B1' & B2' & B3' & B4' & B5' & B6').
  pose proof (T 3 6 ltac:(lia) ltac:(lia) ltac:(lia))%nat as T1.
  pose proof (T 6 9 ltac:(lia) ltac:(lia) ltac:(lia))%nat as T2.
  pose proof (T 9 13 ltac:(lia) ltac:(lia) ltac:(lia))%nat as T3.
  pose proof (T 17 20 ltac:(lia) ltac:(lia) ltac:(lia))%nat as T4.
  rewrite T0, T1, T2, T3 in B1'. rewrite T1, T3, T4 in B2'.
  rewrite T1, T2, T3 in B3'. rewrite T3 in B4'. rewrite T3, T4 in B6'.
  fold out in B1, B2, B3, B4, B5, B6.
  fold out' in B1', B2', B3', B4', B5', B6'.
  split.
  - rewrite B1', B1. apply madd_shift.
  - rewrite (cols_3_20_blocks out'), (cols_3_20_blocks out).
    now rewrite B2', B3', B4', B5', B6', B2, B3, B4, B5, B6.
Qed.

Lemma translation_equivariance_witness :
  cols 0 3 (simulate_quadrotor sample_params [half_action]
              (translate [10; 20; 30] [hover_state]) 0.02) =
  rows_op Rplus
    (cols 0 3 (simulate_quadrotor sample_params [half_action] [hover_state]
                                  0.02))
    [10; 20; 30].
Proof.
  apply (translation_equivariance sample_params 1 [half_action] [hover_state]
           0.02 [10; 20; 30]).
  - split; cbn; lra.
  - now apply shape2_rows1.
  - now apply shape2_rows1.
  - reflexivity.
Defined.

(** *** Batch independence *)

(** C3. The step on the two-row batch [s1; s2] with actions [a1; a2]
    returns the row of the step on [(s1, a1)] followed by the row of the
    step on [(s2, a2)], each run alone with batch size 1; two identical
    input rows give two identical output rows. *)
Theorem batch_independence (P : copter_params_t)
        (s1 s2 a1 a2 : tensor1) (dt : R) :
  params_ok P ->
  length s1 = 20%nat -> length s2 = 20%nat ->
  length a1 = 4%nat -> length a2 = 4%nat ->
  simulate_quadrotor P [a1; a2] [s1; s2] dt =
    simulate_quadrotor P [a1] [s1] dt ++ simulate_quadrotor P [a2] [s2] dt /\
  length (simulate_quadrotor P [a1] [s1] dt) = 1%nat /\
  length (simulate_quadrotor P [a2] [s2] dt) = 1%nat /\
  (a1 = a2 -> s1 = s2 ->
   exists row, simulate_quadrotor P [a1; a2] [s1; s2] dt = [row; row]).
Proof.
  intros _ H1 H2 H3 H4.
  assert (E12 : simulate_quadrotor P [a1; a2] [s1; s2] dt =
                [step_row P dt a1 s1; step_row P dt a2 s2]).
  { apply (simulate_quadrotor_rows P 2);
      (split; [reflexivity | now repeat constructor]). }
  assert (E1 : simulate_quadrotor P [a1] [s1] dt = [step_row P dt a1 s1]).
  { apply (simulate_quadrotor_rows P 1); now apply shape2_rows1. }
  assert (E2 : simulate_quadrotor P [a2] [s2] dt = [step_row P dt a2 s2]).
  { apply (simulate_quadrotor_rows P 1); now apply shape2_rows1. }
  rewrite E12, E1, E2. repeat split.
  intros <- <-. now exists (step_row P dt a1 s1).
Qed.

Lemma batch_independence_witness :
  simulate_quadrotor sample_params [half_action; zero_action]
                     [hover_state; moving_state] 0.02 =
  simulate_quadrotor sample_params [half_action] [hover_state] 0.02
  ++ simulate_quadrotor sample_params [zero_action] [moving_state] 0.02.
Proof.
  apply (batch_independence sample_params hover_state moving_state
           half_action zero_action 0.02);
    [split; cbn; lra | reflexivity ..].
Defined.

(** The same for a batch of any size: the step is the concatenation of
    the single-row steps. *)
Lemma batch_independence_any_size P n action state dt :
  shape2 n 20 state -> shape2 n 4 action ->
  simulate_quadrotor P action state dt =
  concat (zipWith (fun a s => simulate_quadrotor P [a] [s] dt) action state).
Proof.
  intros Hs Ha. rewrite (simulate_quadrotor_rows P n) by assumption.
  destruct Hs as [Hn Hs], Ha as [Hm Ha]. subst n.
  revert state Hm Hs.
  induction Ha as [|a action Ha1 Ha IH]; intros [|s state] Hm Hs;
    try reflexivity.
  inversion Hs; subst. cbn [zipWith concat].
  rewrite (simulate_quadrotor_rows P 1 [a] [s]) by now apply shape2_rows1.
  cbn [zipWith app]. f_equal. apply IH; [now injection Hm | assumption].
Qed.

(** *** The position update *)

(** What the code computes for the position block: the velocity term is
    [0.5 * dt * velocity]. *)
Lemma position_update P n action state dt :
  shape2 n 20 state -> shape2 n 4 action ->
  let out := simulate_quadrotor P action state dt in
  let acceleration :=
    linear_dynamics P (cols 9 13 out) (cols 3 6 state) (cols 6 9 state) in
  cols 0 3 out =
  madd (madd (cols 0 3 state) (mscale (0.5 * dt * dt) acceleration))
       (mscale (0.5 * dt) (cols 6 9 state)).
Proof.
  intros Hs Ha.
  destruct (simulate_quadrotor_blocks P n action state dt Hs Ha)
    as (H1 & _ & _ & H4 & _).
  cbv zeta. now rewrite H4.
Qed.

Lemma shape2_1_3_inv (t : tensor2) :
  shape2 1 3 t -> exists x y z, t = [[x; y; z]].
Proof.
  intros [Hn Hk]. destruct t as [|r [|r' t]]; try discriminate Hn.
  inversion Hk as [|? ? Hr _]; subst.
  destruct (length3_inv r Hr) as (x & y & z & ->). now exists x, y, z.
Qed.

(** The position block at that input, evaluated. *)
Lemma position_moving_state_value :
  cols 0 3 (simulate_quadrotor sample_params [zero_action] [moving_state] 0.02)
  = [[0.01 - 0.0002 * (0.0001 / 0.723); 0; - 0.001962]].
Proof.
  rewrite (simulate_quadrotor_rows sample_params 1)
    by now apply shape2_rows1.
  cbv [zipWith cols map zero_action moving_state step_row slice firstn skipn
       Nat.sub rotor_row linear_row angular_row euler_rate_row vadd vsub vmul
       vdiv vscale vsum rotation_of transpose mat_mat mat_vec dot diag
       from_numpy seq length Nat.eqb nth hd fold_right app
       sample_params mass thrust_factor translational_drag gravity
       max_rotor_speed vx vy vz].
  rewrite cos_0, sin_0, sqrt_0.
  replace (0 * 1000) with 0 by lra.
  replace (0 + gamma _ 0.02 * (0 - 0)) with 0 by lra.
  rewrite (Rmax_left 0 0) by lra.
  equal_rows.
Qed.

(** C1 at one input.  For the single vehicle [moving_state] (velocity 1
    along x), the zero action and [dt = 0.02], the position block returned
    by the step is [position + 0.5*dt^2*acceleration + 0.5*dt*velocity],
    which differs from [position + 0.5*dt^2*acceleration + dt*velocity];
    the acceleration is that of the force model on the updated rotor speed,
    the input attitude and the input velocity.  The vehicle advances by
    about 0.01 along x where a velocity of 1 held for 0.02 gives 0.02. *)
Theorem position_update_moving_state :
  let state := [moving_state] in
  let dt := 0.02 in
  let out := simulate_quadrotor sample_params [zero_action] state dt in
  let acceleration :=
    linear_dynamics sample_params (cols 9 13 out) (cols 3 6 state)
                    (cols 6 9 state) in
  cols 0 3 out =
    madd (madd (cols 0 3 state) (mscale (0.5 * dt * dt) acceleration))
         (mscale (0.5 * dt) (cols 6 9 state)) /\
  cols 0 3 out <>
    madd (madd (cols 0 3 state) (mscale (0.5 * dt * dt) acceleration))
         (mscale dt (cols 6 9 state)) /\
  cols 0 3 out = [[0.01 - 0.0002 * (0.0001 / 0.723); 0; - 0.001962]].
Proof.
  intros state dt out acceleration.
  assert (V := position_moving_state_value).
  fold state out in V.
  assert (Hs : shape2 1 20 state) by now apply shape2_rows1.
  assert (Ha : shape2 1 4 [zero_action]) by now apply shape2_rows1.
  pose proof (position_update sample_params 1 [zero_action] state dt Hs Ha)
    as E.
  cbv zeta in E. fold out in E. fold acceleration in E.
  split; [exact E|]. split; [|exact V]. rewrite E.
  assert (Hacc : shape2 1 3 acceleration).
  { apply (shape2_linear_dynamics sample_params 1 4 3).
    - apply (shape2_cols 1 20 9 13); [lia|].
      now apply shape2_simulate_quadrotor.
    - exact (shape2_cols 1 20 3 6 state ltac:(lia) Hs).
    - exact (shape2_cols 1 20 6 9 state ltac:(lia) Hs). }
  destruct (shape2_1_3_inv _ Hacc) as (x & y & z & ->).
  subst state dt. unfold moving_state.
  cbv [cols slice map firstn skipn Nat.sub madd mscale vadd vscale zipWith].
  intros H. injection H as H _ _. lra.
Qed.


(** * Further properties of the dynamics *)

(** ** Rotor response *)

Lemma Rpower_half_bounds x : 0 <= x -> 0 < Rpower 0.5 x <= 1.
Proof.
  intros Hx. split; [apply exp_pos|].
  replace 1 with (Rpower 1 x).
  - apply Rle_Rpower_l; [exact Hx | lra].
  - unfold Rpower. rewrite ln_1, Rmult_0_r. apply exp_0.
Qed.

Lemma gamma_range P dt :
  0 < rotor_speed_half_time P -> 0 <= dt -> 0 <= gamma P dt < 1.
Proof.
  intros Hh Hdt. unfold gamma.
  assert (Hx : 0 <= dt / rotor_speed_half_time P).
  { apply Rmult_le_pos; [exact Hdt|]. left. now apply Rinv_0_lt_compat. }
  pose proof (Rpower_half_bounds _ Hx). lra.
Qed.

Lemma gamma_plus P dt1 dt2 :
  1 - gamma P (dt1 + dt2) = (1 - gamma P dt1) * (1 - gamma P dt2).
Proof.
  unfold gamma.
  replace ((dt1 + dt2) / rotor_speed_half_time P)
    with (dt1 / rotor_speed_half_time P + dt2 / rotor_speed_half_time P)
    by (unfold Rdiv; ring).
  rewrite Rpower_plus. ring.
Qed.

Lemma gamma_half_time P :
  0 < rotor_speed_half_time P -> gamma P (rotor_speed_half_time P) = 0.5.
Proof.
  intros Hh. unfold gamma, Rdiv.
  rewrite Rinv_r by lra. rewrite Rpower_1 by lra. lra.
Qed.

(** X1. For [dt >= 0] and a positive half time, [gamma] lies in [0, 1); it
    is exactly one half when [dt] is the half time. *)
Theorem gamma_bounds_and_half_time (P : copter_params_t) (dt : R) :
  0 < rotor_speed_half_time P -> 0 <= dt ->
  0 <= gamma P dt < 1 /\ gamma P (rotor_speed_half_time P) = 0.5.
Proof.
  intros Hh Hdt. split; [now apply gamma_range | now apply gamma_half_time].
Qed.

Lemma gamma_bounds_and_half_time_witness :
  0 <= gamma sample_params 0.02 < 1 /\ gamma sample_params 0.0625 = 0.5.
Proof.
  apply (gamma_bounds_and_half_time sample_params 0.02); cbn; lra.
Defined.

Lemma nth_zipWith {A B C} (f : A -> B -> C) da db dc xs ys i :
  (i < length xs)%nat -> (i < length ys)%nat ->
  nth i (zipWith f xs ys) dc = f (nth i xs da) (nth i ys db).
Proof.
  revert ys i; induction xs as [|x xs IH]; intros [|y ys] [|i] Hx Hy;
    cbn in *; try lia; [reflexivity|].
  apply IH; lia.
Qed.

Lemma entry_zipWith (f : R -> R -> R) t u n k i j :
  shape2 n k t -> shape2 n k u -> (i < n)%nat -> (j < k)%nat ->
  entry i j (zipWith (zipWith f) t u) = f (entry i j t) (entry i j u).
Proof.
  intros [Hn Ht] [Hm Hu] Hi Hj. unfold entry.
  rewrite (nth_zipWith _ [] []) by lia.
  apply nth_zipWith.
  - rewrite Forall_forall in Ht. rewrite Ht; [lia|]. apply nth_In. lia.
  - rewrite Forall_forall in Hu. rewrite Hu; [lia|]. apply nth_In. lia.
Qed.

Lemma nonneg_entry t n k i j :
  shape2 n k t -> nonneg t -> (i < n)%nat -> (j < k)%nat -> 0 <= entry i j t.
Proof.
  intros [Hn Hk] H Hi Hj. unfold entry, nonneg in *.
  rewrite Forall_forall in H, Hk.
  assert (Hin : In (nth i t []) t) by (apply nth_In; lia).
  specialize (H _ Hin). rewrite Forall_forall in H. apply H, nth_In.
  rewrite (Hk _ Hin). exact Hj.
Qed.

(** The rotor-speed block of the output, entry by entry. *)
Lemma rotor_entry P n action state dt i j :
  shape2 n 20 state -> shape2 n 4 action -> (i < n)%nat -> (j < 4)%nat ->
  entry i j (cols 9 13 (simulate_quadrotor P action state dt)) =
  Rmax (entry i j (cols 9 13 state)
        + gamma P dt * (sqrt (entry i j action) * max_rotor_speed P
                        - entry i j (cols 9 13 state))) 0.
Proof.
  intros Hs Ha Hi Hj.
  destruct (simulate_quadrotor_blocks P n action state dt Hs Ha)
    as (_ & _ & _ & H & _).
  rewrite H, updated_rotor_speed_rows.
  rewrite (entry_zipWith _ _ _ n 4); auto.
  exact (shape2_cols n 20 9 13 state ltac:(lia) Hs).
Qed.

(** X2. The rotor response does not overshoot: with a non-negative action
    and [max_rotor_speed >= 0], every new rotor speed lies between the old
    one and the desired one, [sqrt(action) * max_rotor_speed]. *)
Theorem rotor_speed_no_overshoot (P : copter_params_t) (n : nat)
        (action state : tensor2) (dt : R) (i j : nat) :
  params_ok P -> 0 < rotor_speed_half_time P -> 0 <= max_rotor_speed P ->
  0 <= dt ->
  shape2 n 20 state -> shape2 n 4 action -> nonneg action ->
  (i < n)%nat -> (j < 4)%nat ->
  let w := entry i j (cols 9 13 state) in
  let desired := sqrt (entry i j action) * max_rotor_speed P in
  let w' := entry i j (cols 9 13 (simulate_quadrotor P action state dt)) in
  Rmin w desired <= w' <= Rmax w desired.
Proof.
  intros _ Hh Hmax Hdt Hs Ha _ Hi Hj w desired w'.
  unfold w'. rewrite (rotor_entry P n) by assumption. fold w desired.
  pose proof (gamma_range P dt Hh Hdt) as Hg.
  assert (Hd : 0 <= desired)
    by (apply Rmult_le_pos; [apply sqrt_pos | exact Hmax]).
  unfold Rmin, Rmax.
  repeat destruct Rle_dec; nra.
Qed.

Lemma rotor_speed_no_overshoot_witness :
  Rmin 400 (sqrt 0.25 * 1000) <=
  entry 0 0 (cols 9 13 (simulate_quadrotor sample_params [half_action]
                          [hover_state] 0.02))
  <= Rmax 400 (sqrt 0.25 * 1000).
Proof.
  apply (rotor_speed_no_overshoot sample_params 1 [half_action] [hover_state]
           0.02 0 0).
  - split; cbn; lra.
  - cbn; lra.
  - cbn; lra.
  - lra.
  - now apply shape2_rows1.
  - now apply shape2_rows1.
  - nonneg_entries.
  - lia.
  - lia.
Defined.

(** X3. After one half time the distance to the desired speed is halved:
    with [dt = rotor_speed_half_time], a non-negative rotor speed [w] and a
    non-negative desired speed [d] the new rotor speed is [(w + d) / 2]. *)
Theorem rotor_speed_half_time_halves (P : copter_params_t) (n : nat)
        (action state : tensor2) (i j : nat) :
  params_ok P -> 0 < rotor_speed_half_time P -> 0 <= max_rotor_speed P ->
  shape2 n 20 state -> shape2 n 4 action -> nonneg action ->
  nonneg (cols 9 13 state) ->
  (i < n)%nat -> (j < 4)%nat ->
  let w := entry i j (cols 9 13 state) in
  let desired := sqrt (entry i j action) * max_rotor_speed P in
  entry i j (cols 9 13 (simulate_quadrotor P action state
                                           (rotor_speed_half_time P)))
  = (w + desired) / 2.
Proof.
  intros _ Hh Hmax Hs Ha _ Hw Hi Hj w desired.
  rewrite (rotor_entry P n) by assumption. fold w desired.
  rewrite (gamma_half_time P Hh).
  assert (Hd : 0 <= desired)
    by (apply Rmult_le_pos; [apply sqrt_pos | exact Hmax]).
  assert (H0 : 0 <= w).
  { apply (nonneg_entry _ n 4); auto.
    exact (shape2_cols n 20 9 13 state ltac:(lia) Hs). }
  rewrite Rmax_left by lra. lra.
Qed.

Lemma rotor_speed_half_time_halves_witness :
  entry 0 0 (cols 9 13 (simulate_quadrotor sample_params [half_action]
                          [hover_state] 0.0625))
  = (400 + sqrt 0.25 * 1000) / 2.
Proof.
  apply (rotor_speed_half_time_halves sample_params 1 [half_action]
           [hover_state] 0 0).
  - split; cbn; lra.
  - cbn; lra.
  - cbn; lra.
  - now apply shape2_rows1.
  - now apply shape2_rows1.
  - nonneg_entries.
  - unfold hover_state. cbv [cols slice map firstn skipn Nat.sub].
    nonneg_entries.
  - lia.
  - lia.
Defined.

Lemma zipWith_zipWith_r {A B C D} (f : A -> C -> D) (g : A -> B -> C) xs ys :
  zipWith f xs (zipWith g xs ys) = zipWith (fun x y => f x (g x y)) xs ys.
Proof.
  revert ys; induction xs as [|x xs IH]; intros [|y ys]; cbn; auto.
  now rewrite IH.
Qed.

Lemma zipWith_ext_Forall {A} (P Q : A -> Prop) {C} (f g : A -> A -> C) xs ys :
  (forall x y, P x -> Q y -> f x y = g x y) ->
  Forall P xs -> Forall Q ys -> zipWith f xs ys = zipWith g xs ys.
Proof.
  intros E Hx. revert ys.
  induction Hx as [|x xs Hx Hxs IH]; intros ys Hy; [reflexivity|].
  destruct Hy as [|y ys Hy Hys]; [reflexivity|].
  cbn. f_equal; auto.
Qed.

(** Two rotor updates towards the same desired speed are one update over
    the sum of the two time steps. *)
Lemma rotor_update_twice P dt1 dt2 a w :
  0 < rotor_speed_half_time P -> 0 <= max_rotor_speed P ->
  0 <= dt1 -> 0 <= dt2 -> 0 <= a -> 0 <= w ->
  let d := sqrt a * max_rotor_speed P in
  Rmax (Rmax (w + gamma P dt1 * (d - w)) 0
        + gamma P dt2 * (d - Rmax (w + gamma P dt1 * (d - w)) 0)) 0
  = Rmax (w + gamma P (dt1 + dt2) * (d - w)) 0.
Proof.
  intros Hh Hmax H1 H2 Ha Hw d.
  assert (Hd : 0 <= d) by (apply Rmult_le_pos; [apply sqrt_pos | exact Hmax]).
  pose proof (gamma_range P dt1 Hh H1) as G1.
  pose proof (gamma_range P dt2 Hh H2) as G2.
  pose proof (gamma_plus P dt1 dt2) as G.
  rewrite (Rmax_left (w + gamma P dt1 * (d - w)) 0) by nra.
  f_equal. nra.
Qed.

(** X4. Two steps with the same non-negative action compose in the rotor
    speeds: from non-negative rotor speeds, a step of [dt1] followed by a
    step of [dt2] leaves the rotor-speed block that a single step of
    [dt1 + dt2] leaves. *)
Theorem rotor_speed_steps_compose (P : copter_params_t) (n : nat)
        (action state : tensor2) (dt1 dt2 : R) :
  params_ok P -> 0 < rotor_speed_half_time P -> 0 <= max_rotor_speed P ->
  0 <= dt1 -> 0 <= dt2 ->
  shape2 n 20 state -> shape2 n 4 action -> nonneg action ->
  nonneg (cols 9 13 state) ->
  cols 9 13 (simulate_quadrotor P action
               (simulate_quadrotor P action state dt1) dt2) =
  cols 9 13 (simulate_quadrotor P action state (dt1 + dt2)).
Proof.
  intros _ Hh Hmax H1 H2 Hs Ha Hact Hw.
  pose proof (shape2_simulate_quadrotor P n action state dt1 Hs Ha) as Hs'.
  destruct (simulate_quadrotor_blocks P n action state dt1 Hs Ha)
    as (_ & _ & _ & B1 & _).
  destruct (simulate_quadrotor_blocks P n action _ dt2 Hs' Ha)
    as (_ & _ & _ & B2 & _).
  destruct (simulate_quadrotor_blocks P n action state (dt1 + dt2) Hs Ha)
    as (_ & _ & _ & B12 & _).
  rewrite B2, B12, B1, !updated_rotor_speed_rows, zipWith_zipWith_r.
  apply (zipWith_ext_Forall (Forall (fun x => 0 <= x))
                            (Forall (fun x => 0 <= x))); [|exact Hact|exact Hw].
  intros a w Hpa Hpw. rewrite zipWith_zipWith_r.
  apply (zipWith_ext_Forall (fun x => 0 <= x) (fun x => 0 <= x));
    [|exact Hpa|exact Hpw].
  intros x y Hx Hy. now apply rotor_update_twice.
Qed.

Lemma rotor_speed_steps_compose_witness :
  cols 9 13 (simulate_quadrotor sample_params [half_action]
               (simulate_quadrotor sample_params [half_action] [hover_state]
                                   0.02) 0.03) =
  cols 9 13 (simulate_quadrotor sample_params [half_action] [hover_state]
                                (0.02 + 0.03)).
Proof.
  apply (rotor_speed_steps_compose sample_params 1 [half_action]
           [hover_state] 0.02 0.03).
  - split; cbn; lra.
  - cbn; lra.
  - cbn; lra.
  - lra.
  - lra.
  - now apply shape2_rows1.
  - now apply shape2_rows1.
  - nonneg_entries.
  - unfold hover_state. cbv [cols slice map firstn skipn Nat.sub].
    nonneg_entries.
Defined.

(** ** Linear dynamics *)

Lemma vsum_squares_zero (r : tensor1) :
  Forall (fun x => x = 0) r -> vsum (map (fun x => x ^ 2) r) = 0.
Proof.
  induction 1 as [|x r Hx Hr IH]; [reflexivity|].
  cbn [map vsum fold_right] in *. unfold vsum in IH. rewrite IH, Hx. ring.
Qed.

Lemma linear_row_at_rest P r a v :
  Forall (fun x => x = 0) r -> length v = 3%nat ->
  Forall (fun x => x = 0) v ->
  linear_row P r a v = from_numpy (gravity P).
Proof.
  intros Hr Hl Hv. destruct (length3_inv v Hl) as (x & y & z & ->).
  inversion Hv as [|? ? -> Hv1]; subst.
  inversion Hv1 as [|? ? -> Hv2]; subst.
  inversion Hv2 as [|? ? -> _]; subst.
  unfold linear_row. rewrite (vsum_squares_zero r Hr).
  cbv [rotation_of transpose mat_mat mat_vec dot diag from_numpy seq length
       Nat.eqb nth hd map zipWith vadd vsub vmul vscale vsum fold_right].
  unfold Rdiv. repeat (apply (f_equal2 (@cons R)); [ring|]). reflexivity.
Qed.

Lemma zipWith3_const {A B C D} (f : A -> B -> C -> D) d n xs ys zs
      (PA : A -> Prop) (PC : C -> Prop) :
  (forall x y z, PA x -> PC z -> f x y z = d) ->
  length xs = n -> length ys = n -> length zs = n ->
  Forall PA xs -> Forall PC zs ->
  zipWith3 f xs ys zs = repeat d n.
Proof.
  intros E Hx Hy Hz HA. revert n ys zs Hx Hy Hz.
  induction HA as [|x xs Hpx Hxs IH]; intros n ys zs Hx Hy Hz HC;
    subst n.
  - reflexivity.
  - destruct ys as [|y ys]; [discriminate|].
    destruct HC as [|z zs Hpz Hzs]; [discriminate|].
    cbn. f_equal; [now apply E|].
    apply IH; cbn in *; auto; lia.
Qed.

Lemma linear_dynamics_rest P n k rotor_speed attitude velocity :
  shape2 n k rotor_speed -> shape2 n 3 attitude -> shape2 n 3 velocity ->
  all_zero rotor_speed -> all_zero velocity ->
  linear_dynamics P rotor_speed attitude velocity =
  repeat (from_numpy (gravity P)) n.
Proof.
  intros [Hr _] [Ha _] [Hv Hv3] Zr Zv.
  rewrite linear_dynamics_rows by (congruence || assumption).
  apply (zipWith3_const _ _ n _ _ _
           (Forall (fun x => x = 0))
           (fun v => length v = 3%nat /\ Forall (fun x => x = 0) v));
    try assumption.
  - intros r a v Hzr [Hl Hzv]. now apply linear_row_at_rest.
  - unfold all_zero in Zv. rewrite Forall_forall in *. auto.
Qed.

(** X5. With all rotors stopped and zero velocity the acceleration of
    every vehicle is the gravity vector, whatever its attitude. *)
Theorem linear_dynamics_at_rest (P : copter_params_t) (n k : nat)
        (rotor_speed attitude velocity : tensor2) :
  params_ok P ->
  shape2 n k rotor_speed -> shape2 n 3 attitude -> shape2 n 3 velocity ->
  all_zero rotor_speed -> all_zero velocity ->
  linear_dynamics P rotor_speed attitude velocity =
  repeat (from_numpy (gravity P)) n.
Proof. intros _. apply linear_dynamics_rest. Qed.

Lemma linear_dynamics_at_rest_witness :
  linear_dynamics sample_params [[0; 0; 0; 0]; [0; 0; 0; 0]]
                  [[0.3; -0.2; 1]; [0; 0; 0]] [[0; 0; 0]; [0; 0; 0]]
  = [[0; 0; -9.81]; [0; 0; -9.81]].
Proof.
  apply (linear_dynamics_at_rest sample_params 2 4).
  - split; cbn; lra.
  - split; [reflexivity | now repeat constructor].
  - split; [reflexivity | now repeat constructor].
  - split; [reflexivity | now repeat constructor].
  - repeat first [apply Forall_nil | apply Forall_cons]; reflexivity.
  - repeat first [apply Forall_nil | apply Forall_cons]; reflexivity.
Defined.

Lemma rotation_isotropic roll pitch yaw k :
  mat_mat (transpose (rotation_of roll pitch yaw))
          (mat_mat (diag [k; k; k]) (rotation_of roll pitch yaw))
  = [[k; 0; 0]; [0; k; 0]; [0; 0; k]].
Proof.
  pose proof (sin2_cos2 roll) as Hr.
  pose proof (sin2_cos2 pitch) as Hp.
  pose proof (sin2_cos2 yaw) as Hy.
  unfold Rsqr in *.
  cbv [rotation_of transpose mat_mat mat_vec dot diag seq length Nat.eqb nth
       map zipWith vmul vsum fold_right].
  repeat (apply (f_equal2 (@cons (list R)));
          [repeat (apply (f_equal2 (@cons R)); [nsatz|]); reflexivity|]).
  reflexivity.
Qed.

Lemma linear_row_isotropic P k r a v :
  translational_drag P = Vec3 k k k -> length v = 3%nat ->
  linear_row P r a v =
  vadd (vsub (vscale (thrust_factor P / mass P)
                     (map (fun y => y * vsum (map (fun x => x ^ 2) r))
                          (thrust_direction a)))
             (map (fun x => k * x / mass P) v))
       (from_numpy (gravity P)).
Proof.
  intros Hk Hl. destruct (length3_inv v Hl) as (x & y & z & ->).
  unfold linear_row, thrust_direction. rewrite Hk.
  change (from_numpy (Vec3 k k k)) with [k; k; k].
  rewrite rotation_isotropic.
  cbv [mat_mat mat_vec dot transpose map zipWith vmul vsum fold_right hd].
  f_equal. f_equal.
  repeat (apply (f_equal2 (@cons R)); [unfold Rdiv; ring|]). reflexivity.
Qed.

Lemma zipWith3_ext_Forall {A B C D} (f g : A -> B -> C -> D) (PC : C -> Prop)
      xs ys zs :
  (forall x y z, PC z -> f x y z = g x y z) ->
  Forall PC zs -> zipWith3 f xs ys zs = zipWith3 g xs ys zs.
Proof.
  intros E H. revert xs ys.
  induction H as [|z zs Hz Hzs IH]; intros [|x xs] [|y ys]; try reflexivity.
  cbn. f_equal; auto.
Qed.

(** X6. When the translational drag is the same along the three body axes
    ([k, k, k]), the drag does not depend on the attitude: the acceleration
    is [(thrust_factor / mass) * sum(rotor_speed^2)] along the thrust
    direction, minus [k * velocity / mass], plus gravity. *)
Theorem linear_dynamics_isotropic_drag (P : copter_params_t) (n m : nat)
        (k : R) (rotor_speed attitude velocity : tensor2) :
  params_ok P -> translational_drag P = Vec3 k k k ->
  shape2 n m rotor_speed -> shape2 n 3 attitude -> shape2 n 3 velocity ->
  linear_dynamics P rotor_speed attitude velocity =
  zipWith3 (fun w a v =>
              vadd (vsub (vscale (thrust_factor P / mass P)
                                 (map (fun y => y * vsum (map (fun x => x ^ 2) w))
                                      (thrust_direction a)))
                         (map (fun x => k * x / mass P) v))
                   (from_numpy (gravity P)))
           rotor_speed attitude velocity.
Proof.
  intros _ Hk [Hr _] [Ha _] [Hv Hv3].
  rewrite linear_dynamics_rows by (congruence || assumption).
  apply (zipWith3_ext_Forall _ _ (fun v => length v = 3%nat));
    [|exact Hv3].
  intros w a v Hl. now apply linear_row_isotropic.
Qed.

Lemma linear_dynamics_isotropic_drag_witness :
  linear_dynamics sample_params [[400; 400; 400; 400]] [[0.3; -0.2; 1]]
                  [[1; 2; 3]] =
  [vadd (vsub (vscale (5.723e-6 / 0.723)
                 (map (fun y => y * vsum (map (fun x => x ^ 2)
                                              [400; 400; 400; 400]))
                      (thrust_direction [0.3; -0.2; 1])))
              (map (fun x => 1e-4 * x / 0.723) [1; 2; 3]))
        [0; 0; -9.81]].
Proof.
  apply (linear_dynamics_isotropic_drag sample_params 1 4 1e-4).
  - split; cbn; lra.
  - reflexivity.
  - now apply shape2_rows1.
  - now apply shape2_rows1.
  - now apply shape2_rows1.
Defined.

Lemma linear_row_level P r yaw :
  linear_row P r [0; 0; yaw] [0; 0; 0] =
  [vx (gravity P); vy (gravity P);
   thrust_factor P / mass P * vsum (map (fun x => x ^ 2) r) + vz (gravity P)].
Proof.
  unfold linear_row.
  cbv [rotation_of transpose mat_mat mat_vec dot diag from_numpy seq length
       Nat.eqb nth hd map zipWith vadd vsub vmul vscale fold_right].
  rewrite sin_0, cos_0. generalize (vsum (map (fun x => x ^ 2) r)). intros s.
  unfold vsum, fold_right, Rdiv.
  repeat (apply (f_equal2 (@cons R)); [ring|]). reflexivity.
Qed.

(** X7. In level attitude (roll and pitch zero, any yaw) and at zero
    velocity the thrust is vertical: the acceleration is gravity plus
    [(thrust_factor / mass) * sum(rotor_speed^2)] along world z. *)
Theorem linear_dynamics_level (P : copter_params_t) (n : nat)
        (rotor_speed : tensor2) (yaw : tensor1) :
  params_ok P -> shape2 n 4 rotor_speed -> length yaw = n ->
  linear_dynamics P rotor_speed (map (fun y => [0; 0; y]) yaw)
                  (repeat [0; 0; 0] n) =
  map (fun w => [vx (gravity P); vy (gravity P);
                 thrust_factor P / mass P * vsum (map (fun x => x ^ 2) w)
                 + vz (gravity P)])
      rotor_speed.
Proof.
  intros _ [Hr _] Hy.
  rewrite linear_dynamics_rows.
  - subst n. revert yaw Hy. clear.
    induction rotor_speed as [|w rs IH]; intros [|y yaw] Hy;
      try discriminate; [reflexivity|].
    cbn [map repeat length zipWith3]. rewrite linear_row_level. f_equal.
    apply IH. now injection Hy.
  - rewrite length_map. congruence.
  - rewrite length_map, repeat_length. exact Hy.
  - apply Forall_forall. intros v Hv. apply repeat_spec in Hv. now subst.
Qed.

Lemma linear_dynamics_level_witness :
  linear_dynamics sample_params [[400; 400; 400; 400]] [[0; 0; 2]] [[0; 0; 0]]
  = [[0; 0; 5.723e-6 / 0.723 * vsum (map (fun x => x ^ 2)
                                         [400; 400; 400; 400]) + -9.81]].
Proof.
  apply (linear_dynamics_level sample_params 1 [[400; 400; 400; 400]] [2]).
  - split; cbn; lra.
  - now apply shape2_rows1.
  - reflexivity.
Defined.

(** ** Torques *)

Lemma propeller_row_equal P w : propeller_row P [w; w; w; w] = [0; 0; 0].
Proof.
  cbv [propeller_row map nth].
  repeat (apply (f_equal2 (@cons R)); [ring|]). reflexivity.
Qed.

(** X8. When the four rotors of every vehicle turn at the same speed the
    propellers produce no roll, pitch or yaw torque. *)
Theorem propeller_torques_equal_speeds (P : copter_params_t) (speed : tensor1) :
  propeller_torques P (map (fun w => [w; w; w; w]) speed) =
  repeat [0; 0; 0] (length speed).
Proof.
  rewrite propeller_torques_rows, map_map.
  induction speed as [|w speed IH]; [reflexivity|].
  cbn [map length repeat]. now rewrite propeller_row_equal, IH.
Qed.

Lemma angular_row_zero_velocity P w :
  angular_row P w [0; 0; 0] = propeller_row P w.
Proof.
  unfold angular_row.
  assert (E : exists a b c, propeller_row P w = [a; b; c])
    by (now eexists _, _, _).
  destruct E as (a & b & c & ->).
  cbv [from_numpy cross3 vmul vadd vsub zipWith nth].
  repeat (apply (f_equal2 (@cons R)); [ring|]). reflexivity.
Qed.

(** X9. At zero angular velocity the rotational drag, the gyroscopic term
    and the inertial coupling vanish: the body torque is the propeller
    torque. *)
Theorem angular_momentum_zero_velocity (P : copter_params_t)
        (rotor_speeds : tensor2) :
  Forall (fun r => length r = 4%nat) rotor_speeds ->
  angular_momentum_body_frame P rotor_speeds
                              (repeat [0; 0; 0] (length rotor_speeds)) =
  propeller_torques P rotor_speeds.
Proof.
  intros _. rewrite angular_momentum_rows, propeller_torques_rows.
  induction rotor_speeds as [|w rs IH]; [reflexivity|].
  cbn [length repeat zipWith map].
  now rewrite angular_row_zero_velocity, IH.
Qed.

Lemma angular_momentum_zero_velocity_witness :
  angular_momentum_body_frame sample_params [[100; 200; 300; 400]]
                              [[0; 0; 0]] =
  propeller_torques sample_params [[100; 200; 300; 400]].
Proof.
  apply (angular_momentum_zero_velocity sample_params [[100; 200; 300; 400]]).
  repeat constructor.
Defined.

(** ** Euler rates *)

Lemma euler_rate_zipWith attitude angular_velocity :
  map (map (hd 0))
      (zipWith mat_mat
         (map (fun r => euler_matrix_of (nth 0 r 0) (nth 1 r 0)) attitude)
         (unsqueeze2 angular_velocity))
  = zipWith euler_rate_row attitude angular_velocity.
Proof.
  unfold unsqueeze2. revert angular_velocity.
  induction attitude as [|a att IH]; intros [|w av]; try reflexivity.
  cbn [map zipWith]. now rewrite IH.
Qed.

(** X10. [euler_rate] returns a 1-d tensor of three entries for a batch of
    one vehicle, and a 2-d tensor of [N] rows of three entries for a batch
    of any other size [N]: [torch.squeeze] drops the batch dimension when
    it is 1. *)
Theorem euler_rate_batch_of_one (attitude angular_velocity : tensor2) :
  length attitude = length angular_velocity ->
  Forall (fun r => length r = 3%nat) attitude ->
  Forall (fun r => length r = 3%nat) angular_velocity ->
  match euler_rate attitude angular_velocity with
  | Sq1 v => length attitude = 1%nat /\ length v = 3%nat
  | Sq2 t => length attitude <> 1%nat /\ shape2 (length attitude) 3 t
  end.
Proof.
  intros Hl Ha Hw. unfold euler_rate. rewrite to_euler_matrix_map.
  destruct attitude as [|a [|a' att]];
    destruct angular_velocity as [|w [|w' av]]; try discriminate Hl.
  - split; [discriminate | split; [reflexivity | constructor]].
  - split; reflexivity.
  - unfold squeeze. split; [discriminate|].
    rewrite euler_rate_zipWith.
    apply (shape2_zipWith _ 3 3 3).
    + intros r s _ Hs. now apply euler_rate_row_length.
    + split; [reflexivity | exact Ha].
    + split; [now rewrite Hl | exact Hw].
Qed.

Lemma euler_rate_batch_of_one_witness :
  match euler_rate [[0.1; 0.2; 0.3]] [[1; 2; 3]] with
  | Sq1 v => length [[0.1; 0.2; 0.3]] = 1%nat /\ length v = 3%nat
  | Sq2 t => length [[0.1; 0.2; 0.3]] <> 1%nat /\ shape2 1 3 t
  end.
Proof.
  apply (euler_rate_batch_of_one [[0.1; 0.2; 0.3]] [[1; 2; 3]]).
  - reflexivity.
  - repeat constructor.
  - repeat constructor.
Defined.

Lemma euler_rate_row_level yaw w :
  length w = 3%nat -> euler_rate_row [0; 0; yaw] w = w.
Proof.
  intros H. destruct (length3_inv w H) as (p & q & r & ->).
  cbv [euler_rate_row euler_matrix_of mat_mat mat_vec dot transpose map
       zipWith vmul vsum fold_right hd nth].
  rewrite sin_0, cos_0.
  repeat (apply (f_equal2 (@cons R)); [ring|]). reflexivity.
Qed.

(** X11. In level attitude (roll and pitch zero, any yaw) the Euler-angle
    rates are the body rates: the attitude block of the output is the input
    attitude plus [dt] times the angular-velocity block of the output. *)
Theorem attitude_update_level (P : copter_params_t) (n : nat)
        (action state : tensor2) (dt : R) :
  params_ok P -> shape2 n 20 state -> shape2 n 4 action ->
  Forall (fun r => nth 0 r 0 = 0 /\ nth 1 r 0 = 0) (cols 3 6 state) ->
  let out := simulate_quadrotor P action state dt in
  cols 3 6 out = madd (cols 3 6 state) (mscale dt (cols 17 20 out)).
Proof.
  intros _ Hs Ha Hlevel out.
  pose proof (shape2_cols n 20 3 6 state ltac:(lia) Hs) as Hatt.
  pose proof (shape2_angular' P n action state dt Hs Ha) as Hang.
  destruct (simulate_quadrotor_blocks P n action state dt Hs Ha)
    as (_ & B2 & _ & _ & _ & B6).
  fold out in B2, B6. rewrite B2, B6.
  rewrite euler_update_rows;
    [| destruct Hatt, Hang; congruence | apply Hang].
  unfold madd at 2, mscale at 2. rewrite zipWith_map_r.
  apply (zipWith_ext_Forall
           (fun a => length a = 3%nat /\ nth 0 a 0 = 0 /\ nth 1 a 0 = 0)
           (fun w => length w = 3%nat)); [| |apply Hang].
  - intros a w (Hl & H0 & H1) Hw.
    destruct (length3_inv a Hl) as (r & p & y & ->). cbn in H0, H1. subst.
    now rewrite euler_rate_row_level.
  - destruct Hatt as [_ Hatt]. rewrite Forall_forall in *. auto.
Qed.

Lemma attitude_update_level_witness :
  let out := simulate_quadrotor sample_params [half_action] [hover_state]
                                0.02 in
  cols 3 6 out = madd (cols 3 6 [hover_state]) (mscale 0.02 (cols 17 20 out)).
Proof.
  apply (attitude_update_level sample_params 1 [half_action] [hover_state]
           0.02).
  - split; cbn; lra.
  - now apply shape2_rows1.
  - now apply shape2_rows1.
  - repeat constructor.
Defined.

(** ** Equilibrium and free fall *)

Lemma step_row_hover P dt a w x y z yaw :
  0 <= w -> sqrt a * max_rotor_speed P = w ->
  vx (gravity P) = 0 -> vy (gravity P) = 0 ->
  thrust_factor P / mass P * (4 * w ^ 2) + vz (gravity P) = 0 ->
  step_row P dt [a; a; a; a] (hover_row w x y z yaw) = hover_row w x y z yaw.
Proof.
  intros Hw Hd Hgx Hgy Hgz.
  cbv [step_row hover_row slice firstn skipn Nat.sub rotor_row map vadd vsub
       vscale zipWith].
  rewrite Hd. replace (w + gamma P dt * (w - w)) with w by ring.
  rewrite (Rmax_left w 0) by lra.
  cbv [linear_row angular_row propeller_row net_row euler_rate_row
       euler_matrix_of rotation_of transpose mat_mat mat_vec dot diag
       from_numpy cross3 seq length Nat.eqb nth hd map zipWith vadd vsub vmul
       vdiv vscale vsum fold_right app].
  rewrite sin_0, cos_0, Hgx, Hgy.
  replace (vz (gravity P))
    with (- (thrust_factor P / mass P * (4 * w ^ 2))) by lra.
  unfold Rdiv.
  repeat (apply (f_equal2 (@cons R)); [ring|]). reflexivity.
Qed.

(** X12. Hover is a fixed point of the step.  When gravity is vertical and
    the thrust of four rotors at speed [w] balances it
    ([thrust_factor / mass * 4 * w^2 + g_z = 0]), a batch of level vehicles
    at rest with rotor speed [w], commanded the action whose desired speed
    is [w], is returned unchanged, whatever [dt], the positions and the
    headings. *)
Theorem hover_fixed_point (P : copter_params_t) (dt a w : R)
        (poses : list (R * R * R * R)) :
  params_ok P -> 0 <= a -> 0 <= w -> sqrt a * max_rotor_speed P = w ->
  vx (gravity P) = 0 -> vy (gravity P) = 0 ->
  thrust_factor P / mass P * (4 * w ^ 2) + vz (gravity P) = 0 ->
  let state := map (fun '(x, y, z, yaw) => hover_row w x y z yaw) poses in
  let action := map (fun _ => [a; a; a; a]) poses in
  simulate_quadrotor P action state dt = state.
Proof.
  intros _ _ Hw Hd Hgx Hgy Hgz state action.
  rewrite (simulate_quadrotor_rows P (length poses)).
  - subst state action. induction poses as [|[[[x y] z] yaw] poses IH];
      [reflexivity|].
    cbn [map zipWith]. rewrite IH. f_equal. now apply step_row_hover.
  - split; [apply length_map|]. apply Forall_map, Forall_forall.
    now intros [[[x y] z] yaw] _.
  - split; [apply length_map|]. apply Forall_map, Forall_forall.
    now intros p _.
Qed.

Lemma hover_fixed_point_witness :
  simulate_quadrotor unit_params [[1; 1; 1; 1]; [1; 1; 1; 1]]
                     [hover_row 1 0 0 10 0; hover_row 1 5 6 7 0.5] 0.02
  = [hover_row 1 0 0 10 0; hover_row 1 5 6 7 0.5].
Proof.
  apply (hover_fixed_point unit_params 0.02 1 1
           [(0, 0, 10, 0); (5, 6, 7, 0.5)]).
  - split; cbn; lra.
  - lra.
  - lra.
  - rewrite sqrt_1. cbn. lra.
  - reflexivity.
  - reflexivity.
  - cbn. lra.
Defined.

Lemma all_zero_repeat n k t :
  shape2 n k t -> all_zero t -> t = repeat (repeat 0 k) n.
Proof.
  intros [Hn Hk] Hz. subst n. unfold all_zero in Hz.
  induction t as [|r t IH]; [reflexivity|].
  inversion Hk as [|? ? Hr Ht]; inversion Hz as [|? ? Zr Zt]; subst.
  cbn [length repeat]. f_equal; [|now apply IH].
  clear - Zr. induction Zr as [|x r Hx Zr IH]; [reflexivity|].
  cbn [length repeat]. now f_equal.
Qed.

Lemma updated_rotor_speed_stopped P dt n :
  updated_rotor_speed P dt (repeat (repeat 0 4%nat) n)
                      (repeat (repeat 0 4%nat) n)
  = repeat (repeat 0 4%nat) n.
Proof.
  rewrite updated_rotor_speed_rows.
  induction n as [|n IH]; [reflexivity|].
  cbn [repeat zipWith]. f_equal; [|exact IH].
  rewrite sqrt_0.
  replace (0 + gamma P dt * (0 * max_rotor_speed P - 0)) with 0 by ring.
  now rewrite (Rmax_left 0 0) by lra.
Qed.

Lemma all_zero_repeat_zero n k : all_zero (repeat (repeat 0 k) n).
Proof.
  apply Forall_forall. intros r Hr. apply repeat_spec in Hr. subst r.
  apply Forall_forall. intros x Hx. now apply repeat_spec in Hx.
Qed.

Lemma shape2_repeat n k (r : tensor1) : length r = k -> shape2 n k (repeat r n).
Proof.
  intros H. split; [apply repeat_length|].
  apply Forall_forall. intros s Hs. apply repeat_spec in Hs. now subst.
Qed.

Lemma free_fall_position (p : tensor2) (g : tensor1) c c' n :
  length p = n -> length g = 3%nat ->
  Forall (fun r => length r = 3%nat) p ->
  madd (madd p (mscale c (repeat g n))) (mscale c' (repeat [0; 0; 0] n))
  = rows_op Rplus p (vscale c g).
Proof.
  intros Hn Hg Hp. subst n. destruct (length3_inv g Hg) as (gx & gy & gz & ->).
  induction Hp as [|r p Hr Hp IH]; [reflexivity|].
  destruct (length3_inv r Hr) as (x & y & z & ->).
  cbn [length repeat]. unfold madd, mscale, rows_op in IH |- *.
  cbn [map zipWith] in IH |- *. rewrite IH. f_equal.
  cbv [vadd vscale map zipWith repeat].
  repeat (apply (f_equal2 (@cons R)); [ring|]). reflexivity.
Qed.

Lemma free_fall_velocity (g : tensor1) dt n :
  length g = 3%nat ->
  madd (repeat [0; 0; 0] n) (mscale dt (repeat g n))
  = repeat (vscale dt g) n.
Proof.
  intros Hg. destruct (length3_inv g Hg) as (gx & gy & gz & ->).
  induction n as [|n IH]; [reflexivity|].
  unfold madd, mscale in IH |- *. cbn [repeat map zipWith] in IH |- *.
  rewrite IH. f_equal.
  cbv [vadd vscale map zipWith].
  repeat (apply (f_equal2 (@cons R)); [ring|]). reflexivity.
Qed.

(** X13. Free fall.  With the rotors stopped, a zero action and zero
    velocity, one step leaves the rotors stopped, sets every velocity to
    [dt * gravity] and moves every position by [0.5 * dt^2 * gravity],
    whatever the attitude and the angular velocity. *)
Theorem free_fall_step (P : copter_params_t) (n : nat)
        (action state : tensor2) (dt : R) :
  params_ok P -> shape2 n 20 state -> shape2 n 4 action ->
  all_zero action -> all_zero (cols 9 13 state) ->
  all_zero (cols 6 9 state) ->
  let out := simulate_quadrotor P action state dt in
  all_zero (cols 9 13 out) /\
  cols 6 9 out = repeat (vscale dt (from_numpy (gravity P))) n /\
  cols 0 3 out =
  rows_op Rplus (cols 0 3 state)
          (vscale (0.5 * dt * dt) (from_numpy (gravity P))).
Proof.
  intros _ Hs Ha Za Zr Zv out.
  pose proof (shape2_cols n 20 0 3 state ltac:(lia) Hs) as Hp.
  pose proof (shape2_cols n 20 3 6 state ltac:(lia) Hs) as Hatt.
  pose proof (shape2_cols n 20 6 9 state ltac:(lia) Hs) as Hv.
  pose proof (shape2_cols n 20 9 13 state ltac:(lia) Hs) as Hr.
  destruct (simulate_quadrotor_blocks P n action state dt Hs Ha)
    as (B1 & _ & B3 & B4 & _).
  fold out in B1, B3, B4.
  assert (E : updated_rotor_speed P dt action (cols 9 13 state)
              = repeat (repeat 0 4%nat) n).
  { rewrite (all_zero_repeat n 4 action Ha Za).
    rewrite (all_zero_repeat n (13 - 9) _ Hr Zr).
    apply updated_rotor_speed_stopped. }
  rewrite E in B1, B3, B4.
  rewrite (linear_dynamics_rest P n 4) in B1, B3;
    try assumption;
    try apply all_zero_repeat_zero; try (now apply shape2_repeat).
  rewrite (all_zero_repeat n (9 - 6) _ Hv Zv) in B1.
  rewrite (all_zero_repeat n (9 - 6) _ Hv Zv) in B3.
  change (repeat 0 (9 - 6)%nat) with [0; 0; 0] in B1, B3.
  repeat split.
  - rewrite B4. apply all_zero_repeat_zero.
  - rewrite B3. now apply free_fall_velocity.
  - rewrite B1. apply free_fall_position; [apply Hp | reflexivity | apply Hp].
Qed.

Lemma free_fall_step_witness :
  cols 6 9 (simulate_quadrotor sample_params [zero_action]
              [[1; 2; 3;  0.1; 0.2; 0.3;  0; 0; 0;  0; 0; 0; 0;
                0; 0; 0; 0;  0.5; 0.6; 0.7]] 0.02)
  = [vscale 0.02 [0; 0; -9.81]].
Proof.
  apply (free_fall_step sample_params 1 [zero_action]
           [[1; 2; 3;  0.1; 0.2; 0.3;  0; 0; 0;  0; 0; 0; 0;
             0; 0; 0; 0;  0.5; 0.6; 0.7]] 0.02).
  - split; cbn; lra.
  - now apply shape2_rows1.
  - now apply shape2_rows1.
  - repeat first [apply Forall_nil | apply Forall_cons]; reflexivity.
  - repeat first [apply Forall_nil | apply Forall_cons]; reflexivity.
  - repeat first [apply Forall_nil | apply Forall_cons]; reflexivity.
Defined.

(** ** The step as a whole *)

(** X14. The step returns a well-shaped state batch: [N] rows of 20
    entries for [N] input rows, so that steps can be chained; any number
    of chained steps keeps the shape. *)
Theorem simulate_quadrotor_shape (P : copter_params_t) (n : nat)
        (state : tensor2) (dt : R) :
  params_ok P -> shape2 n 20 state ->
  (forall action, shape2 n 4 action ->
                  shape2 n 20 (simulate_quadrotor P action state dt)) /\
  (forall actions, Forall (shape2 n 4) actions ->
                   shape2 n 20 (simulate_steps P actions state dt)).
Proof.
  intros _ Hs. split.
  - intros action Ha. now apply shape2_simulate_quadrotor.
  - intros actions Ha. now apply shape2_simulate_steps.
Qed.

Lemma simulate_quadrotor_shape_witness :
  shape2 1 20 (simulate_steps sample_params [[half_action]; [zero_action]]
                              [hover_state] 0.02).
Proof.
  apply (simulate_quadrotor_shape sample_params 1 [hover_state] 0.02).
  - split; cbn; lra.
  - now apply shape2_rows1.
  - repeat constructor.
Defined.

(** X15. Vehicles of a batch do not interact, whatever the batch size: row
    [i] of the output is the single row that the step returns for row [i]
    of the state and of the action taken alone as a batch of one. *)
Theorem batch_row_independent (P : copter_params_t) (n : nat)
        (action state : tensor2) (dt : R) (i : nat) :
  params_ok P -> shape2 n 20 state -> shape2 n 4 action -> (i < n)%nat ->
  length (simulate_quadrotor P action state dt) = n /\
  simulate_quadrotor P [nth i action []] [nth i state []] dt =
  [nth i (simulate_quadrotor P action state dt) []].
Proof.
  intros _ Hs Ha Hi.
  pose proof (shape2_simulate_quadrotor P n action state dt Hs Ha) as [Hn _].
  split; [exact Hn|].
  rewrite (simulate_quadrotor_rows P n action state) by assumption.
  destruct Hs as [Hsn Hs], Ha as [Han Ha].
  rewrite (simulate_quadrotor_rows P 1).
  - cbn [zipWith]. f_equal. symmetry.
    apply (nth_zipWith _ [] []); lia.
  - apply shape2_rows1. rewrite Forall_forall in Hs. apply Hs, nth_In. lia.
  - apply shape2_rows1. rewrite Forall_forall in Ha. apply Ha, nth_In. lia.
Qed.

Lemma batch_row_independent_witness :
  simulate_quadrotor sample_params [zero_action] [moving_state] 0.02 =
  [nth 1 (simulate_quadrotor sample_params [half_action; zero_action]
                             [hover_state; moving_state] 0.02) []].
Proof.
  apply (batch_row_independent sample_params 2 [half_action; zero_action]
           [hover_state; moving_state] 0.02 1).
  - split; cbn; lra.
  - split; [reflexivity | now repeat constructor].
  - split; [reflexivity | now repeat constructor].
  - lia.
Defined.

(** X16. The order of the integration.  With [w'] the rotor-speed block of
    the output: the new velocity is the old one plus [dt] times the linear
    acceleration at [w'], the old attitude and the old velocity; the new
    angular velocity is the old one plus [dt] times the body torque at [w']
    and the old angular velocity, divided by the frame inertia; and the
    new attitude is the old one plus [dt] times the Euler rate at the old
    attitude and the new angular velocity. *)
Theorem integration_order (P : copter_params_t) (n : nat)
        (action state : tensor2) (dt : R) :
  params_ok P -> shape2 n 20 state -> shape2 n 4 action ->
  let out := simulate_quadrotor P action state dt in
  let attitude := cols 3 6 state in
  let velocity := cols 6 9 state in
  let angular_velocity := cols 17 20 state in
  let w' := cols 9 13 out in
  cols 6 9 out =
    madd velocity (mscale dt (linear_dynamics P w' attitude velocity)) /\
  cols 17 20 out =
    madd angular_velocity
         (mscale dt
            (rows_op Rdiv (angular_momentum_body_frame P w' angular_velocity)
                     (from_numpy (frame_inertia P)))) /\
  cols 3 6 out =
    madd_sq attitude (sq_scale dt (euler_rate attitude (cols 17 20 out))).
Proof.
  intros _ Hs Ha.
  destruct (simulate_quadrotor_blocks P n action state dt Hs Ha)
    as (_ & B2 & B3 & B4 & _ & B6).
  cbv zeta. rewrite B4, B6. auto.
Qed.

Lemma integration_order_witness :
  let out := simulate_quadrotor sample_params [half_action] [hover_state]
                                0.02 in
  cols 6 9 out =
  madd (cols 6 9 [hover_state])
       (mscale 0.02 (linear_dynamics sample_params (cols 9 13 out)
                                     (cols 3 6 [hover_state])
                                     (cols 6 9 [hover_state]))).
Proof.
  apply (integration_order sample_params 1 [half_action] [hover_state] 0.02).
  - split; cbn; lra.
  - now apply shape2_rows1.
  - now apply shape2_rows1.
Defined.

(** X17. The rotation and the rotors evolve on their own: two input states
    with the same rotor speeds and the same angular velocity give the same
    rotor-speed, desired-speed and angular-velocity blocks, whatever their
    positions, attitudes and velocities. *)
Theorem rotation_independent_of_translation (P : copter_params_t) (n : nat)
        (action state1 state2 : tensor2) (dt : R) :
  params_ok P ->
  shape2 n 20 state1 -> shape2 n 20 state2 -> shape2 n 4 action ->
  cols 9 13 state1 = cols 9 13 state2 ->
  cols 17 20 state1 = cols 17 20 state2 ->
  cols 9 20 (simulate_quadrotor P action state1 dt) =
  cols 9 20 (simulate_quadrotor P action state2 dt).
Proof.
  intros _ H1 H2 Ha Er Ew.
  destruct (simulate_quadrotor_blocks P n action state1 dt H1 Ha)
    as (_ & _ & _ & B4 & B5 & B6).
  destruct (simulate_quadrotor_blocks P n action state2 dt H2 Ha)
    as (_ & _ & _ & B4' & B5' & B6').
  rewrite !(cols_split 9 13 20), !(cols_split 13 17 20) by lia.
  rewrite B4, B5, B6, B4', B5', B6', Er, Ew. reflexivity.
Qed.

Lemma rotation_independent_of_translation_witness :
  cols 9 20 (simulate_quadrotor sample_params [half_action]
               [[1; 2; 3;  0; 0; 0;  0; 0; 0;  400; 400; 400; 400;
                 0; 0; 0; 0;  0; 0; 0]] 0.02) =
  cols 9 20 (simulate_quadrotor sample_params [half_action]
               [[7; 8; 9;  0.1; 0.2; 0.3;  4; 5; 6;  400; 400; 400; 400;
                 0; 0; 0; 0;  0; 0; 0]] 0.02).
Proof.
  apply (rotation_independent_of_translation sample_params 1 [half_action]).
  - split; cbn; lra.
  - now apply shape2_rows1.
  - now apply shape2_rows1.
  - now apply shape2_rows1.
  - reflexivity.
  - reflexivity.
Defined.

(** X18. The position and the velocity of the output do not depend on the
    angular velocity of the input: two input states that agree on columns
    0 to 13 give the same position and velocity blocks. *)
Theorem translation_independent_of_angular_velocity
        (P : copter_params_t) (n : nat)
        (action state1 state2 : tensor2) (dt : R) :
  params_ok P ->
  shape2 n 20 state1 -> shape2 n 20 state2 -> shape2 n 4 action ->
  cols 0 13 state1 = cols 0 13 state2 ->
  cols 0 3 (simulate_quadrotor P action state1 dt) =
  cols 0 3 (simulate_quadrotor P action state2 dt) /\
  cols 6 9 (simulate_quadrotor P action state1 dt) =
  cols 6 9 (simulate_quadrotor P action state2 dt).
Proof.
  intros _ H1 H2 Ha E.
  assert (B : forall a b, (b <= 13)%nat ->
                          cols a b state1 = cols a b state2).
  { intros a b Hb.
    pose proof (cols_cols a b 0 13 state1 ltac:(lia)) as E1.
    pose proof (cols_cols a b 0 13 state2 ltac:(lia)) as E2.
    cbn [Nat.add] in E1, E2. now rewrite <- E1, <- E2, E. }
  destruct (simulate_quadrotor_blocks P n action state1 dt H1 Ha)
    as (B1 & _ & B3 & _).
  destruct (simulate_quadrotor_blocks P n action state2 dt H2 Ha)
    as (B1' & _ & B3' & _).
  rewrite B1, B3, B1', B3'.
  rewrite (B 0 3)%nat, (B 3 6)%nat, (B 6 9)%nat, (B 9 13)%nat by lia.
  split; reflexivity.
Qed.

Lemma translation_independent_of_angular_velocity_witness :
  cols 0 3 (simulate_quadrotor sample_params [half_action]
              [[1; 2; 3;  0; 0; 0;  0; 0; 0;  400; 400; 400; 400;
                0; 0; 0; 0;  0; 0; 0]] 0.02) =
  cols 0 3 (simulate_quadrotor sample_params [half_action]
              [[1; 2; 3;  0; 0; 0;  0; 0; 0;  400; 400; 400; 400;
                0; 0; 0; 0;  1; 2; 3]] 0.02).
Proof.
  apply (translation_independent_of_angular_velocity sample_params 1
           [half_action]).
  - split; cbn; lra.
  - now apply shape2_rows1.
  - now apply shape2_rows1.
  - now apply shape2_rows1.
  - reflexivity.
Defined.

(** ** Frame transform *)

Lemma rotation_columns_orthonormal roll pitch yaw :
  mat_mat (transpose (rotation_of roll pitch yaw)) (rotation_of roll pitch yaw)
  = identity3.
Proof.
  pose proof (sin2_cos2 roll) as Hr.
  pose proof (sin2_cos2 pitch) as Hp.
  pose proof (sin2_cos2 yaw) as Hy.
  unfold Rsqr in *.
  cbv [rotation_of identity3 transpose mat_mat mat_vec dot map zipWith vmul
       vsum fold_right].
  repeat (apply (f_equal2 (@cons (list R)));
          [repeat (apply (f_equal2 (@cons R)); [nsatz|]); reflexivity|]).
  reflexivity.
Qed.

Lemma rotation_round_trip roll pitch yaw v :
  length v = 3%nat ->
  mat_vec (transpose (rotation_of roll pitch yaw))
          (mat_vec (rotation_of roll pitch yaw) v) = v /\
  mat_vec (rotation_of roll pitch yaw)
          (mat_vec (transpose (rotation_of roll pitch yaw)) v) = v.
Proof.
  intros H. destruct (length3_inv v H) as (x & y & z & ->).
  pose proof (sin2_cos2 roll) as Hr.
  pose proof (sin2_cos2 pitch) as Hp.
  pose proof (sin2_cos2 yaw) as Hy.
  unfold Rsqr in *.
  cbv [rotation_of transpose mat_vec dot map zipWith vmul vsum fold_right].
  split; repeat (apply (f_equal2 (@cons R)); [nsatz|]); reflexivity.
Qed.

(** X19. World to body and back.  For every matrix [M] of
    [world_to_body_matrix] the transpose, which [linear_dynamics] uses as
    the body-to-world matrix, is the inverse on both sides: [Mt * M] is the
    identity, and a 3-vector rotated by [M] and then by [Mt], or the other
    way round, is returned as it was. *)
Theorem body_to_world_inverts_world_to_body (attitude : tensor2) :
  Forall (fun r => length r = 3%nat) attitude ->
  Forall (fun M =>
            mat_mat (transpose M) M = identity3 /\
            forall v, length v = 3%nat ->
                      mat_vec (transpose M) (mat_vec M v) = v /\
                      mat_vec M (mat_vec (transpose M) v) = v)
         (world_to_body_matrix attitude).
Proof.
  intros _. rewrite world_to_body_matrix_map.
  apply Forall_map, Forall_forall. intros r _. split.
  - apply rotation_columns_orthonormal.
  - intros v Hv. now apply rotation_round_trip.
Qed.

Lemma body_to_world_inverts_world_to_body_witness :
  Forall (fun M =>
            mat_mat (transpose M) M = identity3 /\
            forall v, length v = 3%nat ->
                      mat_vec (transpose M) (mat_vec M v) = v /\
                      mat_vec M (mat_vec (transpose M) v) = v)
         (world_to_body_matrix [[0.1; -0.2; 3]]).
Proof.
  apply (body_to_world_inverts_world_to_body [[0.1; -0.2; 3]]).
  repeat constructor.
Defined.

Lemma rotation_of_period roll pitch yaw (i j k : nat) :
  rotation_of (roll + 2 * INR i * PI) (pitch + 2 * INR j * PI)
              (yaw + 2 * INR k * PI)
  = rotation_of roll pitch yaw.
Proof. unfold rotation_of. now rewrite !sin_period, !cos_period. Qed.

Lemma euler_matrix_of_period roll pitch (i j : nat) :
  euler_matrix_of (roll + 2 * INR i * PI) (pitch + 2 * INR j * PI)
  = euler_matrix_of roll pitch.
Proof. unfold euler_matrix_of. now rewrite !sin_period, !cos_period. Qed.

Lemma matrices_whole_turns (attitude : tensor2) (i j k : nat) :
  Forall (fun r => length r = 3%nat) attitude ->
  let turned :=
    rows_op Rplus attitude [2 * INR i * PI; 2 * INR j * PI; 2 * INR k * PI] in
  world_to_body_matrix turned = world_to_body_matrix attitude /\
  to_euler_matrix turned = to_euler_matrix attitude.
Proof.
  intros H turned. subst turned.
  rewrite !world_to_body_matrix_map, !to_euler_matrix_map.
  unfold rows_op. rewrite !map_map.
  split; apply map_ext_Forall; (eapply Forall_impl; [|exact H]);
    intros r Hr; destruct (length3_inv r Hr) as (x & y & z & ->);
    cbn [zipWith nth].
  - apply rotation_of_period.
  - apply euler_matrix_of_period.
Qed.

Lemma vadd_swap (a t v : tensor1) : vadd (vadd a t) v = vadd (vadd a v) t.
Proof.
  revert t v; induction a as [|x a IH]; intros [|y t] [|z v];
    try reflexivity.
  cbn. f_equal; [ring | apply IH].
Qed.

Lemma map_zipWith {A B C D} (g : C -> D) (f : A -> B -> C) xs ys :
  map g (zipWith f xs ys) = zipWith (fun x y => g (f x y)) xs ys.
Proof.
  revert ys; induction xs as [|x xs IH]; intros [|y ys]; cbn; auto.
  now rewrite IH.
Qed.

Lemma zipWith_ext {A B C} (f g : A -> B -> C) xs ys :
  (forall x y, f x y = g x y) -> zipWith f xs ys = zipWith g xs ys.
Proof.
  intros E; revert ys; induction xs as [|x xs IH]; intros [|y ys]; cbn; auto.
  now rewrite E, IH.
Qed.

Lemma madd_sq_turned (attitude : tensor2) (turns : tensor1) (s : squeezed) :
  madd_sq (rows_op Rplus attitude turns) s
  = rows_op Rplus (madd_sq attitude s) turns.
Proof.
  destruct s as [v | u]; unfold madd_sq, rows_op, madd.
  - rewrite !map_map. apply map_ext. intros a. apply vadd_swap.
  - rewrite zipWith_map_l, map_zipWith. apply zipWith_ext.
    intros a w. apply vadd_swap.
Qed.

Lemma turn_attitude_blocks n turns state :
  length turns = 3%nat -> shape2 n 20 state ->
  shape2 n 20 (turn_attitude turns state) /\
  cols 0 3 (turn_attitude turns state) = cols 0 3 state /\
  cols 3 6 (turn_attitude turns state)
  = rows_op Rplus (cols 3 6 state) turns /\
  forall a b, (6 <= a)%nat -> (a <= b)%nat -> (b <= 20)%nat ->
              cols a b (turn_attitude turns state) = cols a b state.
Proof.
  intros Ht Hs.
  pose proof (shape2_cols n 20 0 3 state ltac:(lia) Hs) as Hp.
  pose proof (shape2_cols n 20 3 6 state ltac:(lia) Hs) as Ha.
  pose proof (shape2_cols n 20 6 20 state ltac:(lia) Hs) as Hr.
  pose proof (shape2_rows_op n 3 Rplus _ turns Ht Ha) as Ha'.
  pose proof (shape2_hstack n 3 14 _ _ Ha' Hr) as H2.
  unfold turn_attitude. cbn [hstack]. repeat split.
  - apply (shape2_hstack n 3 17 _ _ Hp H2).
  - apply (shape2_hstack n 3 17 _ _ Hp H2).
  - apply (cols_hstack_l n 3); [exact Hp | apply H2].
  - etransitivity; [exact (cols_hstack_r n 3 0 3 _ _ Hp (proj1 H2))|].
    apply (cols_hstack_l n 3); [exact Ha' | apply Hr].
  - intros a b Hle Hab Hb.
    pose proof (cols_hstack_r n 3 (a - 3) (b - 3) _ _ Hp (proj1 H2)) as E.
    replace (3 + (a - 3))%nat with a in E by lia.
    replace (3 + (b - 3))%nat with b in E by lia.
    rewrite E. clear E.
    pose proof (cols_hstack_r n 3 (a - 6) (b - 6) _ _ Ha' (proj1 Hr)) as E.
    replace (3 + (a - 6))%nat with (a - 3)%nat in E by lia.
    replace (3 + (b - 6))%nat with (b - 3)%nat in E by lia.
    rewrite E. clear E.
    rewrite cols_cols by lia. f_equal; lia.
Qed.

(** X20. The attitude is read through sines and cosines only, and it is not
    wrapped: adding whole turns ([2 pi] times natural numbers [i], [j],
    [k]) to the roll, pitch and yaw of every input vehicle adds the same
    turns to the attitude block of the output and changes nothing else of
    the output. *)
Theorem attitude_whole_turns (P : copter_params_t) (n : nat)
        (action state : tensor2) (dt : R) (i j k : nat) :
  params_ok P -> shape2 n 20 state -> shape2 n 4 action ->
  let turns := [2 * INR i * PI; 2 * INR j * PI; 2 * INR k * PI] in
  let out := simulate_quadrotor P action state dt in
  let out' := simulate_quadrotor P action (turn_attitude turns state) dt in
  cols 3 6 out' = rows_op Rplus (cols 3 6 out) turns /\
  cols 0 3 out' = cols 0 3 out /\
  cols 6 20 out' = cols 6 20 out.
Proof.
  intros _ Hs Ha turns out out'.
  destruct (turn_attitude_blocks n turns state eq_refl Hs)
    as (Hs' & T0 & T1 & T).
  pose proof (T 6 9 ltac:(lia) ltac:(lia) ltac:(lia))%nat as T2.
  pose proof (T 9 13 ltac:(lia) ltac:(lia) ltac:(lia))%nat as T3.
  pose proof (T 17 20 ltac:(lia) ltac:(lia) ltac:(lia))%nat as T4.
  pose proof (shape2_cols n 20 3 6 state ltac:(lia) Hs) as [_ Hatt].
  destruct (matrices_whole_turns (cols 3 6 state) i j k Hatt) as [M1 M2].
  fold turns in M1, M2.
  assert (L : forall rs vel,
             linear_dynamics P rs (rows_op Rplus (cols 3 6 state) turns) vel
             = linear_dynamics P rs (cols 3 6 state) vel).
  { intros rs vel. unfold linear_dynamics. now rewrite M1. }
  assert (E : forall av,
             euler_rate (rows_op Rplus (cols 3 6 state) turns) av
             = euler_rate (cols 3 6 state) av).
  { intros av. unfold euler_rate. now rewrite M2. }
  destruct (simulate_quadrotor_blocks P n action state dt Hs Ha)
    as (B1 & B2 & B3 & B4 & B5 & B6).
  destruct (simulate_quadrotor_blocks P n action _ dt Hs' Ha)
    as (B1' & B2' & B3' & B4' & B5' & B6').
  fold out in B1, B2, B3, B4, B5, B6.
  fold out' in B1', B2', B3', B4', B5', B6'.
  rewrite T0, T1, T2, T3, L in B1'. rewrite T1, T3, T4, E in B2'.
  rewrite T1, T2, T3, L in B3'. rewrite T3 in B4'. rewrite T3, T4 in B6'.
  repeat split.
  - rewrite B2', B2. apply madd_sq_turned.
  - now rewrite B1', B1.
  - rewrite !(cols_split 6 9 20), !(cols_split 9 13 20),
      !(cols_split 13 17 20) by lia.
    now rewrite B3', B4', B5', B6', B3, B4, B5, B6.
Qed.

Lemma attitude_whole_turns_witness :
  let turns := [2 * INR 1 * PI; 2 * INR 0 * PI; 2 * INR 2 * PI] in
  cols 3 6 (simulate_quadrotor sample_params [half_action]
              (turn_attitude turns [hover_state]) 0.02)
  = rows_op Rplus
      (cols 3 6 (simulate_quadrotor sample_params [half_action] [hover_state]
                                    0.02))
      turns.
Proof.
  apply (attitude_whole_turns sample_params 1 [half_action] [hover_state]
           0.02 1 0 2).
  - split; cbn; lra.
  - now apply shape2_rows1.
  - now apply shape2_rows1.
Defined.

(** * Properties of the data preparation ([dataset.py]) *)

(** ** Column statistics *)

Lemma vsum_cons x v : vsum (x :: v) = x + vsum v.
Proof. reflexivity. Qed.

Lemma vsum_map_scale (h : R -> R) k c :
  vsum (map (fun x => h x * k) c) = vsum (map h c) * k.
Proof.
  induction c as [|x c IH]; cbn [map]; rewrite ?vsum_cons.
  - unfold vsum. cbn. ring.
  - rewrite IH. ring.
Qed.

Lemma vsum_map_minus m c :
  vsum (map (fun x => x - m) c) = vsum c - INR (length c) * m.
Proof.
  induction c as [|x c IH].
  - unfold vsum. cbn. ring.
  - cbn [map length]. rewrite !vsum_cons, IH, S_INR. ring.
Qed.

Lemma INR_length_neq_0 {A} (c : list A) : c <> [] -> INR (length c) <> 0.
Proof.
  intros H. apply not_0_INR. destruct c; [contradiction | discriminate].
Qed.

(** A column centred on its mean and divided by a non-zero number has
    mean 0. *)
Lemma np_mean_centred c s :
  c <> [] -> s <> 0 ->
  np_mean (map (fun x => (x - np_mean c) / s) c) = 0.
Proof.
  intros Hc Hs. pose proof (INR_length_neq_0 c Hc) as Hn.
  unfold np_mean at 1. rewrite length_map.
  replace (map (fun x => (x - np_mean c) / s) c)
    with (map (fun x => (x - np_mean c) * / s) c) by reflexivity.
  rewrite (vsum_map_scale (fun x => x - np_mean c)), vsum_map_minus.
  unfold np_mean. field. auto.
Qed.

Lemma sqrt_neq_0_pos x : sqrt x <> 0 -> 0 < x.
Proof.
  intros H. destruct (Rlt_le_dec 0 x) as [Hx | Hx]; [exact Hx|].
  exfalso. apply H. now apply sqrt_neg_0.
Qed.

(** Divided by its own standard deviation, it has standard deviation 1. *)
Lemma np_std_standardized c :
  c <> [] -> np_std c <> 0 ->
  np_std (map (fun x => (x - np_mean c) / np_std c) c) = 1.
Proof.
  intros Hc Hs. pose proof (INR_length_neq_0 c Hc) as Hn.
  unfold np_std at 1. rewrite (np_mean_centred c _ Hc Hs).
  rewrite map_map.
  set (V := np_mean (map (fun x => Rabs (x - np_mean c) ^ 2) c)).
  assert (HV : 0 < V) by (apply sqrt_neq_0_pos; exact Hs).
  assert (Hsq : np_std c * np_std c = V)
    by (unfold np_std; fold V; apply sqrt_sqrt; lra).
  replace (np_mean (map (fun x => Rabs ((x - np_mean c) / np_std c - 0) ^ 2) c))
    with 1; [apply sqrt_1|].
  assert (HS : vsum (map (fun x => Rabs (x - np_mean c) ^ 2) c)
               = V * INR (length c)).
  { unfold V, np_mean at 2. rewrite length_map. field. exact Hn. }
  unfold np_mean at 1. rewrite length_map.
  rewrite (map_ext _ (fun x => Rabs (x - np_mean c) ^ 2 * / V)).
  - rewrite (vsum_map_scale (fun x => Rabs (x - np_mean c) ^ 2)), HS.
    field. split; [lra | exact Hn].
  - intros x. rewrite !pow2_abs, <- Hsq. field. exact Hs.
Qed.

(** ** Transposition and broadcasting *)

Lemma zipWith_cons_rows_op (op : R -> R -> R) (r : tensor1) (C : tensor2) v :
  zipWith cons (zipWith op r v)
          (zipWith (fun col x => map (fun y => op y x) col) C v)
  = zipWith (fun col x => map (fun y => op y x) col) (zipWith cons r C) v.
Proof.
  revert C v; induction r as [|y r IH]; intros [|c C] [|x v];
    try reflexivity.
  cbn. now rewrite IH.
Qed.

(** The columns of [t op v], [v] broadcast over the rows of [t], are the
    columns of [t] combined with the entries of [v]. *)
Lemma transpose_rows_op (op : R -> R -> R) (t : tensor2) v :
  t <> [] ->
  transpose (rows_op op t v) =
  zipWith (fun col x => map (fun y => op y x) col) (transpose t) v.
Proof.
  intros Ht. destruct t as [|r t]; [contradiction|]. clear Ht.
  revert r; induction t as [|r' t IH]; intros r.
  - cbn [rows_op map transpose].
    rewrite zipWith_map_l. clear.
    revert v; induction r as [|y r IH]; intros [|x v]; try reflexivity.
    cbn. now rewrite IH.
  - change (transpose (rows_op op (r :: r' :: t) v))
      with (zipWith cons (zipWith op r v)
                    (transpose (rows_op op (r' :: t) v))).
    change (transpose (r :: r' :: t))
      with (zipWith cons r (transpose (r' :: t))).
    rewrite IH. apply zipWith_cons_rows_op.
Qed.

Lemma Forall_length_zipWith_cons (r : tensor1) (C : tensor2) m :
  Forall (fun c => length c = m) C ->
  Forall (fun c => length c = S m) (zipWith cons r C).
Proof.
  intros H. revert r.
  induction H as [|c C Hc HC IH]; intros [|x r]; cbn; constructor.
  - cbn. now rewrite Hc.
  - apply IH.
Qed.

Lemma shape2_transpose n k (t : tensor2) :
  (0 < n)%nat -> shape2 n k t -> shape2 k n (transpose t).
Proof.
  intros Hn [Hl Hk]. subst n.
  destruct t as [|r t]; [cbn in Hn; lia|]. clear Hn.
  revert r Hk; induction t as [|r' t IH]; intros r Hk;
    inversion Hk as [|? ? Hr Ht]; subst.
  - cbn [transpose length]. split; [apply length_map|].
    apply Forall_map, Forall_forall. now intros x _.
  - change (transpose (r :: r' :: t))
      with (zipWith cons r (transpose (r' :: t))).
    destruct (IH r' Ht) as [IH1 IH2]. split.
    + rewrite zipWith_length, IH1. apply Nat.min_id.
    + now apply Forall_length_zipWith_cons.
Qed.

Lemma zipWith_map_map {A B C D} (f : B -> C -> D) (g : A -> B) (h : A -> C)
      xs :
  zipWith f (map g xs) (map h xs) = map (fun x => f (g x) (h x)) xs.
Proof. now rewrite zipWith_map_l, zipWith_map_r, zipWith_same. Qed.

Lemma rows_op_nonempty op (t : tensor2) v : t <> [] -> rows_op op t v <> [].
Proof. destruct t; [contradiction | discriminate]. Qed.

(** The columns of the array normalized with its own statistics. *)
Lemma transpose_normalized (t : tensor2) :
  t <> [] ->
  transpose (normalized t (np_mean_axis0 t) (np_std_axis0 t)) =
  map (fun c => map (fun x => (x - np_mean c) / np_std c) c) (transpose t).
Proof.
  intros Ht. unfold normalized, np_mean_axis0, np_std_axis0.
  rewrite transpose_rows_op by now apply rows_op_nonempty.
  rewrite transpose_rows_op by exact Ht.
  rewrite <- (map_id (transpose t)) at 1.
  rewrite zipWith_map_map, zipWith_map_l.
  rewrite <- (map_id (transpose t)) at 1.
  rewrite zipWith_map_map.
  apply map_ext. intros c. unfold id. now rewrite map_map.
Qed.

Lemma normalized_statistics n k (t : tensor2) :
  (0 < n)%nat -> shape2 n k t ->
  Forall (fun s => s <> 0) (np_std_axis0 t) ->
  np_mean_axis0 (normalized t (np_mean_axis0 t) (np_std_axis0 t))
  = repeat 0 k /\
  np_std_axis0 (normalized t (np_mean_axis0 t) (np_std_axis0 t))
  = repeat 1 k.
Proof.
  intros Hn Ht Hs.
  assert (Hne : t <> []) by (destruct Ht as [Hl _], t; [cbn in Hl; lia | discriminate]).
  destruct (shape2_transpose n k t Hn Ht) as [Hk Hcols].
  unfold np_mean_axis0 at 1, np_std_axis0 at 2.
  rewrite transpose_normalized by exact Hne.
  unfold np_std_axis0 in Hs. rewrite Forall_map in Hs.
  rewrite !map_map. subst k.
  revert Hcols Hs. generalize (transpose t). clear - Hn.
  intros C Hcols Hs.
  induction C as [|c C IH]; [split; reflexivity|].
  inversion Hcols as [|? ? Hc HC]; inversion Hs as [|? ? Hsc HsC]; subst.
  destruct (IH HC HsC) as [IH1 IH2].
  assert (Hcne : c <> []) by (destruct c; [cbn in Hn; lia | discriminate]).
  cbn [map length repeat]. rewrite IH1, IH2.
  now rewrite np_mean_centred, np_std_standardized.
Qed.

(** ** [raw_states_to_torch] *)

(** X21. Normalizing a batch of at least one state with the statistics the
    function computes itself (no [mean], no [std] given), none of the
    standard deviations being zero: every column of the returned tensor has
    mean 0 and standard deviation 1, and the returned statistics are those
    of the columns of the input. *)
Theorem raw_states_to_torch_standardizes (n k : nat) (states : tensor2) :
  (0 < n)%nat -> shape2 n k states ->
  Forall (fun s => s <> 0) (np_std_axis0 states) ->
  exists t,
    raw_states_to_torch (Arr2 states) true None None true =
    Tensor_mean_std t (Some (np_mean_axis0 states))
                    (Std_array (np_std_axis0 states)) /\
    raw_states_to_torch (Arr2 states) true None None false = Tensor_only t /\
    shape2 n k t /\
    np_mean_axis0 t = repeat 0 k /\
    np_std_axis0 t = repeat 1 k.
Proof.
  intros Hn Hs Hstd.
  exists (normalized states (np_mean_axis0 states) (np_std_axis0 states)).
  destruct (normalized_statistics n k states Hn Hs Hstd) as [H1 H2].
  destruct (shape2_transpose n k states Hn Hs) as [Hk _].
  assert (Hshape : shape2 n k (normalized states (np_mean_axis0 states)
                                          (np_std_axis0 states))).
  { unfold normalized.
    apply shape2_rows_op; [unfold np_std_axis0; now rewrite length_map|].
    apply shape2_rows_op; [unfold np_mean_axis0; now rewrite length_map|].
    exact Hs. }
  split; [reflexivity|]. split; [reflexivity|]. auto.
Qed.

Lemma np_std_pair_neq_0 a b : a <> b -> np_std [a; b] <> 0.
Proof.
  intros H. unfold np_std. apply Rgt_not_eq, Rlt_gt, sqrt_lt_R0.
  unfold np_mean. cbn [map length vsum fold_right INR].
  rewrite !pow2_abs.
  assert (0 < (a - b) ^ 2)
    by (destruct (Rtotal_order a b) as [Hlt | [Heq | Hgt]]; [nra | lra | nra]).
  replace ((a - (a + (b + 0)) / (1 + 1)) ^ 2
           + ((b - (a + (b + 0)) / (1 + 1)) ^ 2 + 0))
    with ((a - b) ^ 2 / 2) by field.
  lra.
Qed.

Lemma raw_states_to_torch_standardizes_witness :
  exists t,
    raw_states_to_torch (Arr2 [[1; 2]; [3; 6]]) true None None true =
    Tensor_mean_std t (Some (np_mean_axis0 [[1; 2]; [3; 6]]))
                    (Std_array (np_std_axis0 [[1; 2]; [3; 6]])) /\
    raw_states_to_torch (Arr2 [[1; 2]; [3; 6]]) true None None false
    = Tensor_only t /\
    shape2 2 2 t /\
    np_mean_axis0 t = repeat 0 2 /\
    np_std_axis0 t = repeat 1 2.
Proof.
  apply (raw_states_to_torch_standardizes 2 2 [[1; 2]; [3; 6]]).
  - lia.
  - split; [reflexivity | now repeat constructor].
  - repeat first [apply Forall_nil | apply Forall_cons];
      apply np_std_pair_neq_0; lra.
Defined.

Lemma np_mean_single x : np_mean [x] = x.
Proof. unfold np_mean. cbn. field. Qed.

Lemma np_std_single x : np_std [x] = 0.
Proof.
  unfold np_std. rewrite np_mean_single. unfold np_mean.
  cbn [map length vsum fold_right INR].
  replace (x - x) with 0 by ring. rewrite Rabs_R0.
  replace ((0 ^ 2 + 0) / 1) with 0 by field. apply sqrt_0.
Qed.

(** X22. A single state normalized with statistics computed from itself:
    the mean returned is the state and every standard deviation returned
    is 0, so that the normalization divides by zero in every channel. *)
Theorem raw_states_to_torch_single_state (state : tensor1) :
  exists t,
    raw_states_to_torch (Arr1 state) true None None true =
    Tensor_mean_std t (Some state) (Std_array (repeat 0 (length state))).
Proof.
  eexists. unfold raw_states_to_torch, expand_states.
  cbn [transpose np_mean_axis0 np_std_axis0].
  f_equal.
  - f_equal. unfold np_mean_axis0. cbn [transpose]. rewrite map_map.
    rewrite (map_ext _ (fun x => x)) by apply np_mean_single.
    apply map_id.
  - f_equal. unfold np_std_axis0. cbn [transpose]. rewrite map_map.
    rewrite (map_ext _ (fun _ => 0)) by apply np_std_single.
    induction state as [|x state IH]; [reflexivity|].
    cbn. now rewrite IH.
Qed.

(** ** [DroneDataset.prepare_data] *)

Lemma update_at_prefix {A} (f : A -> A) m l :
  update_at m f (map f (firstn m l) ++ skipn m l)
  = map f (firstn (S m) l) ++ skipn (S m) l.
Proof.
  revert l; induction m as [|m IH]; intros [|x l]; try reflexivity.
  cbn [firstn skipn map app update_at]. f_equal. apply IH.
Qed.

Lemma fold_update_at {A} (f : A -> A) m l :
  fold_left (fun l i => update_at i f l) (seq 0 m) l
  = map f (firstn m l) ++ skipn m l.
Proof.
  induction m as [|m IH]; [reflexivity|].
  rewrite seq_S, fold_left_app, IH. cbn [fold_left Nat.add].
  apply update_at_prefix.
Qed.

Lemma fold_update_at_all {A} (f : A -> A) l :
  fold_left (fun l i => update_at i f l) (seq 0 (length l)) l = map f l.
Proof.
  now rewrite fold_update_at, firstn_all, skipn_all, app_nil_r.
Qed.

Lemma zipWith_fst {A B} (xs : list A) (ys : list B) :
  length xs = length ys -> zipWith (fun x _ => x) xs ys = xs.
Proof.
  revert ys; induction xs as [|x xs IH]; intros [|y ys] H;
    try discriminate; [reflexivity|].
  cbn. f_equal. apply IH. now injection H.
Qed.

Lemma zipWith_zipWith_l {A B C} (f : A -> B -> C) (g : A -> B -> A) xs ys :
  zipWith f (zipWith g xs ys) ys = zipWith (fun x y => f (g x y) y) xs ys.
Proof.
  revert ys; induction xs as [|x xs IH]; intros [|y ys]; cbn; auto.
  now rewrite IH.
Qed.

(** A loop of row-wise updates is the row-wise loop. *)
Lemma fold_zipWith {A B I} (h : I -> B -> A -> A) (idx : list I) xs ys :
  length xs = length ys ->
  fold_left (fun r i => zipWith (fun x y => h i y x) r ys) idx xs
  = zipWith (fun x y => fold_left (fun x i => h i y x) idx x) xs ys.
Proof.
  revert xs; induction idx as [|i idx IH]; intros xs H; cbn [fold_left].
  - symmetry. now apply zipWith_fst.
  - rewrite IH by (rewrite zipWith_length; lia).
    apply zipWith_zipWith_l.
Qed.

Lemma squeeze3_unsqueeze3 t : squeeze3 (unsqueeze3 t) = t.
Proof.
  unfold squeeze3, unsqueeze3. rewrite map_map.
  rewrite <- (map_id t) at 2. apply map_ext. intros a.
  rewrite map_map. rewrite <- (map_id a) at 2. apply map_ext. intros b.
  rewrite map_map. apply map_id.
Qed.

Lemma zipWith_ext_Forall_l {A B C} (P : A -> Prop) (f g : A -> B -> C) xs ys :
  (forall x y, P x -> f x y = g x y) ->
  Forall P xs -> zipWith f xs ys = zipWith g xs ys.
Proof.
  intros E H. revert ys.
  induction H as [|x xs Hx Hxs IH]; intros [|y ys]; try reflexivity.
  cbn. f_equal; auto.
Qed.

(** The references after the loop of [prepare_data]. *)
Lemma prepare_data_references n t k (ref : tensor3) (position : tensor2) :
  shape3 n t k ref -> length position = n ->
  fold_left (fun r i => subtract_position_at i r position)
            (seq 0 (length (hd [] ref))) ref
  = zipWith (fun trajectory p =>
               map (fun row => vsub (firstn 3 row) p ++ skipn 3 row)
                   trajectory)
            ref position.
Proof.
  intros [Hn Hr] Hp. unfold subtract_position_at.
  rewrite (fold_zipWith
             (fun i p trajectory =>
                update_at i (fun row => vsub (firstn 3 row) p ++ skipn 3 row)
                          trajectory)) by congruence.
  assert (Ht : length (hd [] ref) = t \/ ref = []).
  { destruct Hr as [|r ref [Hr _] _]; [now right | now left]. }
  destruct Ht as [Ht | ->]; [|reflexivity].
  rewrite Ht.
  apply (zipWith_ext_Forall_l (shape2 t k)); [|exact Hr].
  intros trajectory p [Hl _]. rewrite <- Hl.
  apply (fold_update_at_all
           (fun row => vsub (firstn 3 row) p ++ skipn 3 row)).
Qed.

Lemma prepare_data_value n t k k' mean std states ref :
  shape2 n k states -> shape3 n t k' ref ->
  prepare_data mean std states ref =
  (normalized states mean std,
   zipWith (fun trajectory s => map (relative_to s) trajectory) ref states,
   zipWith (fun trajectory s => map (relative_to s) trajectory) ref states).
Proof.
  intros Hs Hr. unfold prepare_data.
  rewrite squeeze3_unsqueeze3.
  rewrite (prepare_data_references n t k') by
    (try assumption; rewrite cols_length; apply Hs).
  unfold cols. rewrite zipWith_map_r. reflexivity.
Qed.

(** X23. [prepare_data] returns the normalized states and, twice, the
    reference trajectories with the unnormalized position of their vehicle
    subtracted from the first three entries of every time step, the other
    entries untouched: the references meant for the body frame are the
    world-frame ones, no rotation is applied. *)
Theorem prepare_data_relative_references (n t k k' : nat)
        (mean std : tensor1) (states : tensor2) (ref_states : tensor3) :
  shape2 n k states -> (6 <= k)%nat ->
  length mean = k -> length std = k ->
  shape3 n t k' ref_states -> (3 <= k')%nat ->
  let relative :=
    zipWith (fun trajectory state =>
               map (fun row => vsub (firstn 3 row) (firstn 3 state)
                                    ++ skipn 3 row)
                   trajectory)
            ref_states states in
  prepare_data mean std states ref_states =
  (rows_op Rdiv (rows_op Rminus states mean) std, relative, relative) /\
  shape3 n t k' relative.
Proof.
  intros Hs Hk _ _ Hr Hk' relative. split.
  - now apply (prepare_data_value n t k k').
  - subst relative. destruct Hs as [Hn Hs], Hr as [Hm Hr]. split.
    + rewrite zipWith_length. lia.
    + clear Hn Hm. revert states Hs.
      induction Hr as [|tr ref Htr Href IH]; intros states Hs;
        [constructor|].
      destruct Hs as [|s states Hsl Hs]; [constructor|].
      cbn [zipWith]. constructor; [|now apply IH].
      destruct Htr as [Ht Hrows]. split; [now rewrite length_map|].
      apply Forall_map. eapply Forall_impl; [|exact Hrows].
      intros row Hrow.
      change (length (vsub (firstn 3 row) (firstn 3 s) ++ skipn 3 row) = k').
      rewrite length_app, vsub_length, !length_firstn, length_skipn.
      rewrite Hrow, Hsl. lia.
Qed.

Lemma prepare_data_relative_references_witness :
  prepare_data [2; 4; 4; 0; 1; 2] [1; 2; 1; 1; 1; 2] sample_states
               sample_refs =
  (rows_op Rdiv (rows_op Rminus sample_states [2; 4; 4; 0; 1; 2])
           [1; 2; 1; 1; 1; 2],
   zipWith (fun trajectory state =>
              map (fun row => vsub (firstn 3 row) (firstn 3 state)
                                   ++ skipn 3 row)
                  trajectory)
           sample_refs sample_states,
   zipWith (fun trajectory state =>
              map (fun row => vsub (firstn 3 row) (firstn 3 state)
                                   ++ skipn 3 row)
                  trajectory)
           sample_refs sample_states).
Proof.
  apply (prepare_data_relative_references 2 2 6 4).
  - split; [reflexivity | now repeat constructor].
  - lia.
  - reflexivity.
  - reflexivity.
  - split; [reflexivity | now repeat constructor].
  - lia.
Defined.

Lemma shift_position_length delta row :
  length delta = 3%nat -> (3 <= length row)%nat ->
  length (shift_position delta row) = length row.
Proof.
  intros Hd Hr. unfold shift_position.
  rewrite length_app, vadd_length, length_firstn, length_skipn. lia.
Qed.

Lemma relative_to_shift delta state row :
  length delta = 3%nat -> (3 <= length state)%nat -> (3 <= length row)%nat ->
  relative_to (shift_position delta state) (shift_position delta row)
  = relative_to state row.
Proof.
  intros Hd Hs Hr. unfold relative_to, shift_position.
  assert (Ls : length (firstn 3 state) = 3%nat)
    by (rewrite length_firstn; lia).
  assert (Lr : length (firstn 3 row) = 3%nat)
    by (rewrite length_firstn; lia).
  destruct (length3_inv _ Ls) as (a & b & c & ->).
  destruct (length3_inv _ Lr) as (x & y & z & ->).
  destruct (length3_inv _ Hd) as (u & v & w & ->).
  cbn [vadd vsub zipWith app firstn skipn]. f_equal; [ring|].
  f_equal; [ring|]. f_equal. ring.
Qed.

(** X24. The relative references do not depend on where the scene is: when
    the positions of all states and of all reference time steps are moved
    by the same [delta], [prepare_data] returns the same references. *)
Theorem prepare_data_translation_invariant (n t k k' : nat)
        (mean std delta : tensor1) (states : tensor2) (ref_states : tensor3) :
  shape2 n k states -> (6 <= k)%nat ->
  length mean = k -> length std = k ->
  shape3 n t k' ref_states -> (3 <= k')%nat ->
  length delta = 3%nat ->
  snd (fst (prepare_data mean std (map (shift_position delta) states)
                         (map (map (shift_position delta)) ref_states)))
  = snd (fst (prepare_data mean std states ref_states)).
Proof.
  intros Hs Hk _ _ Hr Hk' Hd.
  rewrite (prepare_data_value n t k k' mean std states ref_states)
    by assumption.
  rewrite (prepare_data_value n t k k').
  - cbn [fst snd]. rewrite zipWith_map_l, zipWith_map_r.
    destruct Hs as [_ Hs], Hr as [_ Hr]. clear - Hs Hr Hk Hk' Hd.
    revert states Hs.
    induction Hr as [|tr ref Htr Href IH]; intros states Hs;
      [reflexivity|].
    destruct Hs as [|s states Hsl Hs]; [reflexivity|].
    cbn [zipWith]. f_equal; [|now apply IH].
    rewrite map_map. apply map_ext_Forall.
    destruct Htr as [_ Hrows]. eapply Forall_impl; [|exact Hrows].
    intros row Hrow. cbv beta in Hrow, Hsl. apply relative_to_shift; lia.
  - destruct Hs as [Hn Hs]. split; [now rewrite length_map|].
    apply Forall_map. eapply Forall_impl; [|exact Hs].
    intros s Hsl. cbv beta in Hsl. rewrite shift_position_length; lia.
  - destruct Hr as [Hn Hr]. split; [now rewrite length_map|].
    apply Forall_map. eapply Forall_impl; [|exact Hr].
    intros tr [Ht Hrows]. split; [now rewrite length_map|].
    apply Forall_map. eapply Forall_impl; [|exact Hrows].
    intros row Hrow. cbv beta in Hrow. rewrite shift_position_length; lia.
Qed.

Lemma prepare_data_translation_invariant_witness :
  snd (fst (prepare_data [2; 4; 4; 0; 1; 2] [1; 2; 1; 1; 1; 2]
                         (map (shift_position [10; 20; 30]) sample_states)
                         (map (map (shift_position [10; 20; 30]))
                              sample_refs)))
  = snd (fst (prepare_data [2; 4; 4; 0; 1; 2] [1; 2; 1; 1; 1; 2]
                           sample_states sample_refs)).
Proof.
  apply (prepare_data_translation_invariant 2 2 6 4).
  - split; [reflexivity | now repeat constructor].
  - lia.
  - reflexivity.
  - reflexivity.
  - split; [reflexivity | now repeat constructor].
  - lia.
  - reflexivity.
Defined.

(** ** [DroneDataset] *)

(** X25. A dataset built without a [mean] computes its statistics from the
    sampled states, whether or not a [std] was passed (a [std] passed
    alone is discarded); it holds one normalized state per sampled state,
    and when no channel is constant every channel of the stored states has
    mean 0 and standard deviation 1. *)
Theorem DroneDataset_init_statistics (n t k k' : nat)
        (std : option tensor1) (states : tensor2) (ref_states : tensor3) :
  (0 < n)%nat -> shape2 n k states -> (6 <= k)%nat ->
  shape3 n t k' ref_states -> (3 <= k')%nat ->
  Forall (fun s => s <> 0) (np_std_axis0 states) ->
  exists d,
    DroneDataset_init None std states ref_states = inr d /\
    ds_mean d = np_mean_axis0 states /\
    ds_std d = np_std_axis0 states /\
    DroneDataset_len d = n /\
    np_mean_axis0 (ds_states d) = repeat 0 k /\
    np_std_axis0 (ds_states d) = repeat 1 k.
Proof.
  intros Hn Hs _ Hr _ Hstd.
  unfold DroneDataset_init.
  rewrite (prepare_data_value n t k k') by assumption.
  eexists. split; [reflexivity|].
  destruct (normalized_statistics n k states Hn Hs Hstd) as [H1 H2].
  cbn [ds_mean ds_std ds_states]. unfold DroneDataset_len.
  cbn [ds_states]. repeat split; try assumption.
  unfold normalized. rewrite !rows_op_length. apply Hs.
Qed.

Lemma np_std_axis0_sample_states :
  Forall (fun s => s <> 0) (np_std_axis0 sample_states).
Proof.
  repeat first [apply Forall_nil | apply Forall_cons];
    apply np_std_pair_neq_0; lra.
Qed.

Lemma DroneDataset_init_statistics_witness :
  exists d,
    DroneDataset_init None (Some [1; 1; 1; 1; 1; 1]) sample_states sample_refs
    = inr d /\
    ds_mean d = np_mean_axis0 sample_states /\
    ds_std d = np_std_axis0 sample_states /\
    DroneDataset_len d = 2%nat /\
    np_mean_axis0 (ds_states d) = repeat 0 6 /\
    np_std_axis0 (ds_states d) = repeat 1 6.
Proof.
  apply (DroneDataset_init_statistics 2 2 6 4).
  - lia.
  - split; [reflexivity | now repeat constructor].
  - lia.
  - split; [reflexivity | now repeat constructor].
  - lia.
  - repeat first [apply Forall_nil | apply Forall_cons];
      apply np_std_pair_neq_0; lra.
Defined.

Lemma nth_error_zipWith {A B C} (f : A -> B -> C) da db xs ys i :
  (i < length xs)%nat -> (i < length ys)%nat ->
  nth_error (zipWith f xs ys) i = Some (f (nth i xs da) (nth i ys db)).
Proof.
  revert ys i; induction xs as [|x xs IH]; intros [|y ys] [|i] Hx Hy;
    cbn in *; try lia; [reflexivity|].
  apply IH; lia.
Qed.

Lemma nth_error_map_nth {A B} (f : A -> B) d xs i :
  (i < length xs)%nat -> nth_error (map f xs) i = Some (f (nth i xs d)).
Proof.
  intros H. rewrite nth_error_map, (nth_error_nth' xs d H). reflexivity.
Qed.

(** X26. Items of a dataset built with a given [mean] and [std].  There
    are as many items as sampled states; item [i] is the state [i]
    normalized, [(state - mean) / std], with its reference trajectory made
    relative to the position of state [i], given twice; an index past the
    end has no item. *)
Theorem DroneDataset_items (n t k k' : nat) (mean std : tensor1)
        (states : tensor2) (ref_states : tensor3) :
  shape2 n k states -> (6 <= k)%nat ->
  length mean = k -> length std = k ->
  shape3 n t k' ref_states -> (3 <= k')%nat ->
  exists d,
    DroneDataset_init (Some mean) (Some std) states ref_states = inr d /\
    DroneDataset_len d = n /\
    (forall i, (i < n)%nat ->
       let state := nth i states [] in
       let relative := map (relative_to state) (nth i ref_states []) in
       DroneDataset_getitem d i =
       Some (vdiv (vsub state mean) std, relative, relative)) /\
    (forall i, (n <= i)%nat -> DroneDataset_getitem d i = None).
Proof.
  intros Hs _ _ _ Hr _.
  unfold DroneDataset_init.
  rewrite (prepare_data_value n t k k') by assumption.
  eexists. split; [reflexivity|].
  destruct Hs as [Hn Hs], Hr as [Hm Hr].
  unfold DroneDataset_len, DroneDataset_getitem.
  cbn [ds_states ds_ref_world ds_ref_body].
  split; [unfold normalized; now rewrite !rows_op_length|].
  split.
  - intros i Hi. cbv zeta.
    unfold normalized, rows_op. rewrite map_map.
    rewrite (nth_error_map_nth _ []) by lia.
    rewrite (nth_error_zipWith _ [] []) by lia.
    reflexivity.
  - intros i Hi.
    assert (E : nth_error (normalized states mean std) i = None).
    { apply nth_error_None. unfold normalized.
      rewrite !rows_op_length. lia. }
    now rewrite E.
Qed.

Lemma DroneDataset_items_witness :
  exists d,
    DroneDataset_init (Some [2; 4; 4; 0; 1; 2]) (Some [1; 2; 1; 1; 1; 2])
                      sample_states sample_refs = inr d /\
    DroneDataset_len d = 2%nat /\
    (forall i, (i < 2)%nat ->
       let state := nth i sample_states [] in
       let relative := map (relative_to state) (nth i sample_refs []) in
       DroneDataset_getitem d i =
       Some (vdiv (vsub state [2; 4; 4; 0; 1; 2]) [1; 2; 1; 1; 1; 2],
             relative, relative)) /\
    (forall i, (2 <= i)%nat -> DroneDataset_getitem d i = None).
Proof.
  apply (DroneDataset_items 2 2 6 4).
  - split; [reflexivity | now repeat constructor].
  - lia.
  - reflexivity.
  - reflexivity.
  - split; [reflexivity | now repeat constructor].
  - lia.
Defined.

(** ** [CartpoleDataset] *)

Section CartpoleNames.

Import String.
Local Open Scope string_scope.

(** X27. A [CartpoleDataset] cannot be put to use: whatever
    [construct_states] returned, [__init__] ends in the [NameError] of
    [to_torch]; and the static method [prepare_data] ends in a [NameError]
    for [self] on every array, single state or batch. *)
Theorem CartpoleDataset_unusable (self sampled : Py.value)
        (states : ndarray) :
  Py.CartpoleDataset_init self sampled
  = inl (Py.NameError "state_arr_numpy") /\
  Cartpole.prepare_data states = inl (Py.NameError "self").
Proof. split; [reflexivity | now destruct states]. Qed.

End CartpoleNames.
